(** * baby-gol: Conway's Game of Life on a finite board

    A shallow embedding of [src/main.cpp] (classes [Cell], [Neighborhood],
    [Grid], [PlayStrategy], [Player], [Game]) and the properties its
    specification states about them.

    Conventions of the embedding.
    - A C++ [int] is a [Z].  Signed overflow is undefined behaviour; the only
      product the program forms is [width * height] in the constructor, which
      is checked against [INT_MAX] there, and every other sum stays between
      [-1] and [m_max] (lemmas [to_1d_fits_int], [neighbor_coord_fits_int]).
    - [std::array<int,2>] is a pair [Z * Z]; [coord[0]] is [.1], [coord[1]]
      is [.2].
    - The heap array [m_contents] is a [list Z]; reading or writing outside
      of it (undefined behaviour in C++) is the [None] of the [option] monad.
    - [std::vector] is a [list]; [push_back] appends at the end.
    - [std::default_random_engine] and [std::uniform_int_distribution] belong
      to the C++ standard library: they are an interface ([RandomEngine]).
    - A [std::ostream] is the [list ascii] written to it so far; [<<]
      appends. *)

From Stdlib Require Import Ascii.
From stdpp Require Import base option list list_numbers.
From Stdlib Require Import ZArith Lia.

Local Open Scope Z_scope.

(** ** Machine integers and raw arrays *)

Definition INT_MAX : Z := 2147483647.
Definition INT_MIN : Z := -2147483648.

Definition fits_int (z : Z) : Prop := INT_MIN <= z <= INT_MAX.

(** [a[i]] as an rvalue. *)
Definition array_get (a : list Z) (i : Z) : option Z :=
  if 0 <=? i then a !! Z.to_nat i else None.

(** [a[i] = v]. *)
Definition array_set (a : list Z) (i v : Z) : option (list Z) :=
  if (0 <=? i) && (i <? Z.of_nat (length a))
  then Some (<[Z.to_nat i := v]> a)
  else None.

(** ** The standard library's random number facilities *)

Class RandomEngine (E : Type) := {
  (** The state of a default-constructed engine: the fixed default seed. *)
  default_engine : E;
  (** [dist(engine)] for a [uniform_int_distribution<int>] with parameters
      [(a, b)]: the value drawn and the advanced engine. *)
  uniform_int : Z * Z → E → Z * E;
  (** The distribution produces values in the closed range [[a, b]]. *)
  uniform_int_range : ∀ a b e, a <= b → a <= (uniform_int (a, b) e).1 <= b
}.

(** ** class Cell *)

Record Cell := mkCell {
  m_status : Z;
  m_location : Z * Z
}.

(** [Cell()] *)
Definition Cell_default : Cell := mkCell (-1) (-1, -1).

(** [bool(m_status)] *)
Definition is_alive (c : Cell) : bool := negb (m_status c =? 0).
Definition coord (c : Cell) : Z * Z := m_location c.

(** ** class Neighborhood *)

Record Neighborhood := mkNeighborhood {
  m_cell : Cell;
  m_neighbors : list Cell
}.

Definition cell_status (n : Neighborhood) : bool := is_alive (m_cell n).
Definition cell_location (n : Neighborhood) : Z * Z := coord (m_cell n).

Definition count_alive_neighbors (n : Neighborhood) : Z :=
  fold_left (λ count i, if is_alive i then count + 1 else count)
            (m_neighbors n) 0.

(** ** class Grid *)

Definition m_neighbor_offsets : list (Z * Z) :=
  [ (-1, -1); (0, -1); (1, -1);
    (-1, 0); (1, 0);
    (-1, 1); (0, 1); (1, 1) ].

Record Grid (E : Type) := mkGrid {
  m_contents : list Z;
  m_width : Z;
  m_height : Z;
  m_max : Z;
  m_engine : E;
  m_distribution : Z * Z
}.
Arguments mkGrid {E}.
Arguments m_contents {E}.
Arguments m_width {E}.
Arguments m_height {E}.
Arguments m_max {E}.
Arguments m_engine {E}.
Arguments m_distribution {E}.

Section grid.
Context {E : Type}.
Implicit Types (g : Grid E) (idx : Z) (c : Z * Z).

Definition set_contents g (a : list Z) : Grid E :=
  mkGrid a (m_width g) (m_height g) (m_max g) (m_engine g) (m_distribution g).

(** [floor(idx / m_height)] is the truncating integer quotient (the [floor]
    acts on an integer-valued double); [%] is the truncating remainder.
    A division by [m_height = 0] is never reached: the loops that call
    [to_2d] run [m_max = width * 0] times (lemma [neighborhoods_no_cells]). *)
Definition to_2d g idx : Z * Z :=
  let x := idx ÷ m_height g in
  let y := Z.rem idx (m_height g) in
  (x, y).

(** The product and the sum are [int] operations in the source.  They do
    not overflow on the coordinates of the board (lemma [to_1d_fits_int]);
    what is said of other coordinates assumes [to_1d_defined]. *)
Definition to_1d g c : Z :=
  let result := c.2 + (c.1 * m_height g) in
  result.

Definition value_at g c : option Z :=
  let idx := to_1d g c in
  array_get (m_contents g) idx.

Definition activate g c : option (Grid E) :=
  a ← array_set (m_contents g) (to_1d g c) 1;
  Some (set_contents g a).

Definition deactivate g c : option (Grid E) :=
  a ← array_set (m_contents g) (to_1d g c) 0;
  Some (set_contents g a).

(** The bounds test of [neighbors]. *)
Definition within g c : bool :=
  (-1 <? c.1) && (c.1 <? m_width g) && (-1 <? c.2) && (c.2 <? m_height g).

(** The body of the [for] loop of [neighbors], over the offsets still to be
    visited, with the vector built so far. *)
Fixpoint neighbors_loop g (this_coord : Z * Z) (offsets : list (Z * Z))
    (neighbors : list Cell) : option (list Cell) :=
  match offsets with
  | [] => Some neighbors
  | off :: offsets' =>
      let neighbor_coord := (this_coord.1 + off.1, this_coord.2 + off.2) in
      if within g neighbor_coord then
        neighbor_status ← value_at g neighbor_coord;
        neighbors_loop g this_coord offsets'
          (neighbors ++ [mkCell neighbor_status neighbor_coord])
      else neighbors_loop g this_coord offsets' neighbors
  end.

Definition neighbors g idx : option (list Cell) :=
  let this_coord := to_2d g idx in
  neighbors_loop g this_coord m_neighbor_offsets [].

(** The [for] loop of [neighborhoods] over the indices still to be visited. *)
Fixpoint neighborhoods_loop g (indices : list Z) (hoods : list Neighborhood)
    : option (list Neighborhood) :=
  match indices with
  | [] => Some hoods
  | i :: indices' =>
      cell_status ← array_get (m_contents g) i;
      let cell_coord := to_2d g i in
      cell_neighbors ← neighbors g i;
      neighborhoods_loop g indices'
        (hoods ++ [mkNeighborhood (mkCell cell_status cell_coord) cell_neighbors])
  end.

Definition neighborhoods g : option (list Neighborhood) :=
  neighborhoods_loop g (seqZ 0 (m_max g)) [].

End grid.

(** ** operator<< for Grid *)

(** [std::endl]: a line feed (the flush is not observable here). *)
Definition endl : list ascii := ["010"%char].

Section printing.
Context {E : Type}.
Implicit Types (grid : Grid E).

(** The [for] loop of [operator<<] over the indices still to be visited.
    [i % grid.m_width] with [m_width = 0] is undefined: [None]. *)
Fixpoint operator_shl_loop grid (indices : list Z) (out : list ascii)
    : option (list ascii) :=
  match indices with
  | [] => Some out
  | i :: indices' =>
      if m_width grid =? 0 then None
      else
        let out1 :=
          if Z.rem i (m_width grid) =? 0 then
            (if 0 <? i then out ++ [" "%char] else out) ++ endl
          else out in
        v ← array_get (m_contents grid) i;
        let out2 :=
          if v =? 0 then out1 ++ [" "%char; " "%char]
          else out1 ++ [" "%char; "*"%char] in
        operator_shl_loop grid indices' out2
  end.

(** [out << grid] *)
Definition operator_shl (out : list ascii) grid : option (list ascii) :=
  out' ← operator_shl_loop grid (seqZ 0 (m_max grid)) out;
  Some (out' ++ [" "%char]).

End printing.

(** The constructor's loop: [m_contents[i] = m_distribution(m_engine)] for
    [n] consecutive indices. *)
Fixpoint fill_contents `{RandomEngine E} (n : nat) (dist : Z * Z) (engine : E)
    : list Z * E :=
  match n with
  | O => ([], engine)
  | S n' =>
      let '(v, engine') := uniform_int dist engine in
      let '(vs, engine'') := fill_contents n' dist engine' in
      (v :: vs, engine'')
  end.

(** [Grid(int width, int height)].  [None] stands for the two ways the
    constructor does not deliver a grid: [width * height] overflows [int]
    (undefined), or [new int[m_max]] is asked for a negative length
    (it throws). *)
Definition Grid_ctor `{RandomEngine E} (width height : Z) : option (Grid E) :=
  let m_max := width * height in
  if (0 <=? m_max) && (m_max <=? INT_MAX) then
    let dist := (0, 1) in
    let '(contents, engine) :=
      fill_contents (Z.to_nat m_max) dist default_engine in
    Some (mkGrid contents width height m_max engine dist)
  else None.

(** *** The constructor with its allocation

    What a run receives from outside: the arguments of [main], and for each
    [new int[n]] a block of [n] cells whose contents are indeterminate. *)

Record Environment := mkEnvironment {
  argc : Z;
  argv : list (list ascii);
  new_int : Z → list Z
}.

Definition Environment_ok (env : Environment) : Prop :=
  ∀ n, 0 <= n → Z.of_nat (length (new_int env n)) = n.

(** The constructor's loop, writing into the block. *)
Fixpoint Grid_ctor_loop `{RandomEngine E} (indices : list Z) (dist : Z * Z)
    (m_contents : list Z) (engine : E) : option (list Z * E) :=
  match indices with
  | [] => Some (m_contents, engine)
  | i :: indices' =>
      let '(v, engine') := uniform_int dist engine in
      m_contents' ← array_set m_contents i v;
      Grid_ctor_loop indices' dist m_contents' engine'
  end.

(** [Grid(int width, int height)] in an environment: [m_engine] is default
    constructed, [m_contents = new int[m_max]] is whatever the environment
    hands out, and the loop stores a draw in each cell. *)
Definition Grid_ctor_in `{RandomEngine E} (env : Environment)
    (width height : Z) : option (Grid E) :=
  let m_max := width * height in
  if (0 <=? m_max) && (m_max <=? INT_MAX) then
    let dist := (0, 1) in
    let m_contents := new_int env m_max in
    '(contents, engine) ←
      Grid_ctor_loop (seqZ 0 m_max) dist m_contents default_engine;
    Some (mkGrid contents width height m_max engine dist)
  else None.

(** [Grid()] *)
Definition Grid_default `{RandomEngine E} : option (Grid E) := Grid_ctor 10 10.

(** ** class PlayStrategy *)

Definition cell_lives (currently_alive : bool) (living_neighbor_count : Z) : bool :=
  if (living_neighbor_count <? 2) || (3 <? living_neighbor_count) then false
  else if currently_alive then true
  else if living_neighbor_count =? 3 then true
  else false.

Section strategy.
Context {E : Type}.
Implicit Types (g grid : Grid E).

(** The [for] loop of [applyTo] over the neighbourhoods still to be visited. *)
Fixpoint applyTo_loop (hoods : list Neighborhood) grid : option (Grid E) :=
  match hoods with
  | [] => Some grid
  | hood :: hoods' =>
      grid' ← (if cell_lives (cell_status hood) (count_alive_neighbors hood)
               then activate grid (cell_location hood)
               else deactivate grid (cell_location hood));
      applyTo_loop hoods' grid'
  end.

Definition applyTo grid : option (Grid E) :=
  hoods ← neighborhoods grid;
  applyTo_loop hoods grid.

(** ** class Player, class Game *)

(** [Player::play]: the player holds the one strategy there is. *)
Definition play grid : option (Grid E) := applyTo grid.

Record Game := mkGame { m_grid : Grid E }.

Definition play_round (game : Game) : option Game :=
  grid ← play (m_grid game);
  Some (mkGame grid).

(** [Game::show_board], writing to [std::cout]. *)
Definition show_board (game : Game) (cout : list ascii) : option (list ascii) :=
  let cout1 := cout ++ replicate 37 "-"%char in
  cout2 ← operator_shl cout1 (m_grid game);
  Some (cout2 ++ endl).

(** The boards of [frames] consecutive iterations of the loop of [main]:
    each iteration shows the board and then plays a round. *)
Fixpoint main_loop (frames : nat) (game : Game) : option (list (Grid E)) :=
  match frames with
  | O => Some []
  | S frames' =>
      game' ← play_round game;
      boards ← main_loop frames' game';
      Some (m_grid game :: boards)
  end.

End strategy.

(** [Game(player, grid_width, grid_height)] *)
Definition Game_ctor `{RandomEngine E} (grid_width grid_height : Z)
    : option (@Game E) :=
  grid ← Grid_ctor grid_width grid_height;
  Some (mkGame grid).

(** The state sequence of a run of the program on a board of the given
    dimensions ([main] uses 50, 50 and 1000 frames). *)
Definition run `{RandomEngine E} (grid_width grid_height : Z) (frames : nat)
    : option (list (Grid E)) :=
  game ← Game_ctor grid_width grid_height;
  main_loop frames game.

(** The same in an environment, and [main(argc, argv)] itself: a 50 by 50
    board and 1000 frames, whatever the arguments. *)
Definition Game_ctor_in `{RandomEngine E} (env : Environment)
    (grid_width grid_height : Z) : option (@Game E) :=
  grid ← Grid_ctor_in env grid_width grid_height;
  Some (mkGame grid).

Definition run_in `{RandomEngine E} (env : Environment)
    (grid_width grid_height : Z) (frames : nat) : option (list (Grid E)) :=
  game ← Game_ctor_in env grid_width grid_height;
  main_loop frames game.

Definition main `{RandomEngine E} (env : Environment)
    : option (list (Grid E)) :=
  run_in env 50 50 1000.

(** ** The engine and the distribution of libstdc++

    With GCC's standard library [std::default_random_engine] is
    [minstd_rand0]: the state is multiplied by 16807 modulo 2^31 - 1 and
    returned, the default seed is 1, and the values range over
    [1, 2^31 - 2].  [std::uniform_int_distribution<int>] over a narrower
    range scales a draw down and rejects the draws past the last full
    bucket:
      [scaling = urngrange / uerange; past = uerange * scaling;]
      [do ret = urng() - urngmin; while (ret >= past);]
      [return ret / scaling + a;]
    The rejection loop is unrolled twice here, which is exact for the
    distribution (0, 1) that the program uses (lemma
    [minstd_rejects_at_most_once]); the fall-through value, and the value for
    a range as wide as the generator's (another branch of the library), are
    only there to make the function total. *)

Definition minstd_next (x : Z) : Z := (16807 * x) mod 2147483647.
Definition minstd_min : Z := 1.
Definition minstd_max : Z := 2147483646.

Definition uniform_int_libstdcxx (d : Z * Z) (x : Z) : Z * Z :=
  let urngrange := minstd_max - minstd_min in
  let urange := d.2 - d.1 in
  if (0 <=? urange) && (urange <? urngrange) then
    let uerange := urange + 1 in
    let scaling := urngrange / uerange in
    let past := uerange * scaling in
    let x1 := minstd_next x in
    let ret1 := x1 - minstd_min in
    if (0 <=? ret1) && (ret1 <? past) then (d.1 + ret1 / scaling, x1)
    else
      let x2 := minstd_next x1 in
      let ret2 := x2 - minstd_min in
      if (0 <=? ret2) && (ret2 <? past) then (d.1 + ret2 / scaling, x2)
      else (d.1, x2)
  else (d.1, minstd_next x).

#[export] Instance minstd_rand0 : RandomEngine Z.
Proof.
  refine {| default_engine := 1; uniform_int := uniform_int_libstdcxx |}.
  intros a b e Hab. unfold uniform_int_libstdcxx. cbn [fst snd].
  destruct (Z.leb_spec 0 (b - a)); [|simpl; lia].
  destruct (Z.ltb_spec (b - a) (minstd_max - minstd_min)); [|simpl; lia].
  cbn [andb].
  set (scaling := (minstd_max - minstd_min) / (b - a + 1)).
  assert (0 < scaling) as Hscaling by (apply Z.div_str_pos; lia).
  assert (∀ ret, (0 <=? ret) && (ret <? (b - a + 1) * scaling) = true →
                 a <= a + ret / scaling <= b) as Haccept.
  { intros ret [Hlo Hhi]%andb_true_iff.
    apply Z.leb_le in Hlo. apply Z.ltb_lt in Hhi.
    assert (0 <= ret / scaling) by (apply Z.div_pos; lia).
    assert (ret / scaling < b - a + 1)
      by (apply Z.div_lt_upper_bound; lia).
    lia. }
  destruct ((0 <=? minstd_next e - minstd_min)
            && (minstd_next e - minstd_min <? (b - a + 1) * scaling))
    eqn:Hret1; [by apply Haccept|].
  destruct ((0 <=? minstd_next (minstd_next e) - minstd_min)
            && (minstd_next (minstd_next e) - minstd_min
                <? (b - a + 1) * scaling))
    eqn:Hret2; [by apply Haccept|].
  simpl. lia.
Defined.

(** ** Boards and their well-formedness *)

Section boards.
Context {E : Type}.
Implicit Types (g : Grid E) (c : Z * Z).

(** What the constructor establishes and every method keeps. *)
Definition Grid_wf g : Prop :=
  0 < m_width g ∧ 0 < m_height g ∧
  m_max g = m_width g * m_height g ∧
  Z.of_nat (length (m_contents g)) = m_max g.

(** The allocation succeeded without overflow. *)
Definition Grid_fits g : Prop := m_max g <= INT_MAX.

(** Every linear index of the board holds a status in {0, 1}. *)
Definition binary_cells g : Prop :=
  ∀ i, 0 <= i < m_width g * m_height g →
       ∃ v, array_get (m_contents g) i = Some v ∧ (v = 0 ∨ v = 1).

(** The documented precondition on coordinates. *)
Definition valid_coord g c : Prop :=
  0 <= c.1 < m_width g ∧ 0 <= c.2 < m_height g.

(** The [int] arithmetic of [to_1d] on [c] stays within [int]: the two
    components, the height, the product and the sum.  Outside of it the
    source is undefined before any array is touched, and [to_1d] below, an
    integer of [Z], says nothing of it. *)
Definition to_1d_defined g c : Prop :=
  fits_int c.1 ∧ fits_int c.2 ∧ fits_int (m_height g) ∧
  fits_int (c.1 * m_height g) ∧ fits_int (c.2 + c.1 * m_height g).

Definition all_dead g : Prop := Forall (λ v, v = 0) (m_contents g).

(** The live cells of a board, as coordinates in index order. *)
Definition live_cells g : list (Z * Z) :=
  to_2d g <$> List.filter
    (λ i, match array_get (m_contents g) i with
          | Some v => negb (v =? 0)
          | None => false
          end)
    (seqZ 0 (m_max g)).

(** Position classes of a coordinate on the board. *)
Definition border_x g c : bool := (c.1 =? 0) || (c.1 =? m_width g - 1).
Definition border_y g c : bool := (c.2 =? 0) || (c.2 =? m_height g - 1).
Definition is_corner g c : bool := border_x g c && border_y g c.
Definition is_edge g c : bool := xorb (border_x g c) (border_y g c).
Definition is_interior g c : bool := negb (border_x g c) && negb (border_y g c).

(** A board with explicit contents. *)
Definition board (e : E) (width height : Z) (contents : list Z) : Grid E :=
  mkGrid contents width height (width * height) e (0, 1).

End boards.

(** ** The specification's reference semantics

    These definitions follow the words of the specification, not the code:
    the transition table, the 8-connected neighbourhood without wraparound,
    and a synchronous generation computed into a second buffer. *)

Definition next_status (currently_alive : bool) (living_neighbor_count : Z) : bool :=
  if living_neighbor_count <? 2 then false
  else if 3 <? living_neighbor_count then false
  else if currently_alive then true
  else if living_neighbor_count =? 3 then true
  else false.

(** The exhaustive table: (alive, count, next). *)
Definition next_status_table : list (bool * Z * bool) :=
  [ (true, 0, false); (true, 1, false); (true, 2, true); (true, 3, true);
    (true, 4, false); (true, 5, false); (true, 6, false); (true, 7, false);
    (true, 8, false);
    (false, 0, false); (false, 1, false); (false, 2, false); (false, 3, true);
    (false, 4, false); (false, 5, false); (false, 6, false); (false, 7, false);
    (false, 8, false) ].

(** The offset vectors (±1,±1), (±1,0), (0,±1). *)
Definition eight_connected : list (Z * Z) :=
  List.filter (λ o, negb ((o.1 =? 0) && (o.2 =? 0)))
              (list_prod [-1; 0; 1] [-1; 0; 1]).

Definition sum_Z (l : list Z) : Z := fold_right Z.add 0 l.

Section reference.
Context {E : Type}.
Implicit Types (g : Grid E) (c : Z * Z).

Definition in_board g c : bool :=
  (0 <=? c.1) && (c.1 <? m_width g) && (0 <=? c.2) && (c.2 <? m_height g).

(** The status stored for a coordinate of the board. *)
Definition status_at g c : Z :=
  default 0 (m_contents g !! Z.to_nat (c.2 + c.1 * m_height g)).

Definition living g c : bool := in_board g c && negb (status_at g c =? 0).

Definition shift c (o : Z * Z) : Z * Z := (c.1 + o.1, c.2 + o.2).

Definition living_neighbor_count g c : Z :=
  sum_Z ((λ o, if living g (shift c o) then 1 else 0) <$> eight_connected).

(** The next generation, written into a fresh buffer from the old board. *)
Definition next_generation g : list Z :=
  (λ i, let c := (i / m_height g, i mod m_height g) in
        if next_status (living g c) (living_neighbor_count g c) then 1 else 0)
  <$> seqZ 0 (m_width g * m_height g).

(** One synchronous (double-buffered) step: compute the buffer, then swap. *)
Definition sync_step g : Grid E := set_contents g (next_generation g).

End reference.

(** ** Closed forms of the loops

    What the loops of [neighbors], [neighborhoods] and [applyTo] compute on a
    well-formed board, as list expressions; the loops are proved equal to
    them below. *)

Section closed_forms.
Context {E : Type}.
Implicit Types (g : Grid E) (c : Z * Z).

Definition neighbor_cells g c (offsets : list (Z * Z)) : list Cell :=
  (λ n, mkCell (status_at g n) n)
  <$> filter (λ n, within g n = true) (shift c <$> offsets).

Definition hood_of g (i : Z) : Neighborhood :=
  mkNeighborhood (mkCell (status_at g (to_2d g i)) (to_2d g i))
                 (neighbor_cells g (to_2d g i) m_neighbor_offsets).

(** The status [applyTo] writes for a neighbourhood. *)
Definition verdict (hood : Neighborhood) : Z :=
  if cell_lives (cell_status hood) (count_alive_neighbors hood) then 1 else 0.

End closed_forms.

(** ** Runs

    The engine after [n] draws of a distribution, and the boards of [n]
    consecutive generations from a board. *)

Definition engine_after `{RandomEngine E} (dist : Z * Z) (n : nat) (engine : E) : E :=
  Nat.iter n (λ e, (uniform_int dist e).2) engine.

Fixpoint generations {E} (n : nat) (g : Grid E) : list (Grid E) :=
  match n with
  | O => []
  | S n' => g :: generations n' (sync_step g)
  end.

(** ** Concrete environments *)

(** Fresh memory full of sevens, no argument. *)
Definition env_sevens : Environment :=
  mkEnvironment 1 [] (λ n, replicate (Z.to_nat n) 7).

(** Fresh memory holding -5, -4, ..., and one argument. *)
Definition env_counting : Environment :=
  mkEnvironment 2 [["x"%char]] (λ n, seqZ (-5) n).

(** ** Concrete boards *)

(** The 5×5 board with live cells (2,1), (2,2), (2,3). *)
Definition blinker_a : Grid Z :=
  board 1 5 5 [0;0;0;0;0; 0;0;0;0;0; 0;1;1;1;0; 0;0;0;0;0; 0;0;0;0;0].

(** The 5×5 board with live cells (1,2), (2,2), (3,2). *)
Definition blinker_b : Grid Z :=
  board 1 5 5 [0;0;0;0;0; 0;0;1;0;0; 0;0;1;0;0; 0;0;1;0;0; 0;0;0;0;0].

Definition board_1x1 : Grid Z := board 1 1 1 [0].
Definition board_2x2 : Grid Z := board 1 2 2 [0; 1; 0; 1].
Definition board_3x2 : Grid Z := board 1 3 2 [1; 0; 0; 1; 1; 0].

(** ** Views used by the properties of the board *)

Section views.
Context {E : Type}.
Implicit Types (g : Grid E).

(** The cell of index [j] is among the neighbours collected for index [i]. *)
Definition is_neighbor g (i j : Z) : Prop :=
  ∃ cells cell,
    neighbors g i = Some cells ∧ cell ∈ cells ∧ coord cell = to_2d g j.

(** How many of [x - 1], [x], [x + 1] lie in [[0, bound)], for [x] itself
    in that range. *)
Definition reach (x bound : Z) : Z :=
  (if 0 <? x then 1 else 0) + 1 + (if x <? bound - 1 then 1 else 0).

(** The two characters [operator<<] writes for a status. *)
Definition glyph (v : Z) : list ascii :=
  if v =? 0 then [" "%char; " "%char] else [" "%char; "*"%char].

(** A printed line: the line feed, the glyphs of [m_width] consecutive cells
    from index [line * m_width] on, and a blank. *)
Definition printed_line g (line : Z) : list ascii :=
  endl
  ++ concat ((λ i, glyph (default 0 (m_contents g !! Z.to_nat i)))
             <$> seqZ (line * m_width g) (m_width g))
  ++ [" "%char].

(** The character that tells a live cell from a dead one: the second of
    its glyph. *)
Definition mark (v : Z) : ascii := if v =? 0 then " "%char else "*"%char.

(** Where the mark of the cell of index [i] stands in what [operator<<]
    appends: lines are [2 * m_width + 2] characters long, the cell is on
    line [i / m_width] and its mark follows the line feed and
    [i mod m_width] glyphs and a blank. *)
Definition mark_position g (i : Z) : nat :=
  (Z.to_nat (i / m_width g) * Z.to_nat (2 * m_width g + 2)
   + (2 + 2 * Z.to_nat (i mod m_width g)))%nat.

(** [activate] or [deactivate], by the status to store. *)
Definition write g (c : Z * Z) (b : bool) : option (Grid E) :=
  if b then activate g c else deactivate g c.

(** The board with every cell dead. *)
Definition cleared g : Grid E :=
  set_contents g (replicate (length (m_contents g)) 0).

(** The array has the length the constructor gave it. *)
Definition Grid_alloc g : Prop :=
  m_max g = m_width g * m_height g ∧
  Z.of_nat (length (m_contents g)) = m_max g.

End views.

(** ** Proof automation *)

(** Settles every [a <? b] of the goal by linear arithmetic. *)
Ltac decide_ltb :=
  repeat match goal with
  | |- context [?a <? ?b] =>
      first [ rewrite (proj2 (Z.ltb_lt a b)) by lia
            | rewrite (proj2 (Z.ltb_ge a b)) by lia ]
  end.

(** * Properties *)

(** ** Arithmetic of the coordinate maps *)

Lemma quot_rem_floor (i h : Z) :
  0 <= i → 0 < h → i ÷ h = i / h ∧ Z.rem i h = i mod h.
Proof.
  intros Hi Hh; split.
  - apply Z.quot_div_nonneg; lia.
  - apply Z.rem_mod_nonneg; lia.
Qed.

Lemma div_mod_of_pair (x y h : Z) :
  0 <= y < h → (y + x * h) / h = x ∧ (y + x * h) mod h = y.
Proof.
  intros Hy; split.
  - rewrite Z.div_add by lia. rewrite Z.div_small by lia. lia.
  - rewrite Z.mod_add by lia. apply Z.mod_small; lia.
Qed.

Section coordinates.
Context {E : Type}.
Implicit Types (g : Grid E) (idx i : Z) (c : Z * Z).

Lemma to_2d_floor g idx :
  0 <= idx → 0 < m_height g →
  to_2d g idx = (idx / m_height g, idx mod m_height g).
Proof.
  intros Hi Hh. unfold to_2d.
  destruct (quot_rem_floor idx (m_height g) Hi Hh) as [-> ->]. done.
Qed.

Lemma to_1d_to_2d g idx :
  0 <= idx → 0 < m_height g → to_1d g (to_2d g idx) = idx.
Proof.
  intros Hi Hh. rewrite to_2d_floor by done. unfold to_1d; simpl.
  pose proof (Z.div_mod idx (m_height g)); lia.
Qed.

Lemma to_2d_to_1d g c :
  0 <= c.1 → 0 <= c.2 < m_height g → to_2d g (to_1d g c) = c.
Proof.
  intros Hx Hy. destruct c as [x y]; simpl in *.
  rewrite to_2d_floor by (unfold to_1d; simpl; nia).
  unfold to_1d; simpl.
  destruct (div_mod_of_pair x y (m_height g) Hy) as [-> ->]. done.
Qed.

Lemma to_2d_valid g idx :
  0 < m_height g → 0 <= idx < m_width g * m_height g →
  valid_coord g (to_2d g idx).
Proof.
  intros Hh Hi. rewrite to_2d_floor by lia. unfold valid_coord; simpl.
  pose proof (Z.mod_pos_bound idx (m_height g) Hh).
  assert (0 <= idx / m_height g) by (apply Z.div_pos; lia).
  assert (idx / m_height g < m_width g) by (apply Z.div_lt_upper_bound; lia).
  lia.
Qed.

Lemma to_1d_range g c :
  valid_coord g c → 0 <= to_1d g c < m_width g * m_height g.
Proof.
  unfold valid_coord, to_1d. destruct c as [x y]; simpl. intros [Hx Hy]. nia.
Qed.

(** No [int] computed from a valid coordinate overflows. *)
Lemma to_1d_fits_int g c :
  Grid_wf g → Grid_fits g → valid_coord g c →
  fits_int (c.1 * m_height g) ∧ fits_int (to_1d g c).
Proof.
  intros (Hw & Hh & Hmax & _) Hfit Hc.
  pose proof (to_1d_range g c Hc) as Hr.
  unfold Grid_fits, fits_int, INT_MIN, INT_MAX, valid_coord, to_1d in *.
  destruct c as [x y]; simpl in *. nia.
Qed.

Lemma neighbor_coord_fits_int g idx o :
  Grid_wf g → Grid_fits g → 0 <= idx < m_max g → o ∈ m_neighbor_offsets →
  fits_int ((to_2d g idx).1 + o.1) ∧ fits_int ((to_2d g idx).2 + o.2).
Proof.
  intros (Hw & Hh & Hmax & _) Hfit Hi Ho.
  pose proof (to_2d_valid g idx Hh ltac:(lia)) as [Hx Hy].
  assert (-1 <= o.1 <= 1 ∧ -1 <= o.2 <= 1) as Hb.
  { unfold m_neighbor_offsets in Ho. rewrite !elem_of_cons in Ho.
    rewrite elem_of_nil in Ho.
    destruct Ho as [->|[->|[->|[->|[->|[->|[->|[->|[]]]]]]]]]; simpl; lia. }
  unfold Grid_fits, fits_int, INT_MIN, INT_MAX in *. nia.
Qed.

(** A board without cells has no neighbourhood, and [to_2d] is not called. *)
Lemma neighborhoods_no_cells g : m_max g <= 0 → neighborhoods g = Some [].
Proof. intros Hmax. unfold neighborhoods. by rewrite seqZ_nil. Qed.

End coordinates.

(** ** The transition function *)

(** C1. For every status and every count in 0..8, [cell_lives] is false
    below 2 and above 3, true for a live cell with 2 or 3, true for a dead
    cell with exactly 3, false for a dead cell with 2; it is the
    specification's [next_status], and its graph on these 18 inputs is the
    exhaustive table. *)
Theorem cell_lives_table (currently_alive : bool) (n : Z) :
  0 <= n <= 8 →
  (n < 2 → cell_lives currently_alive n = false) ∧
  (3 < n → cell_lives currently_alive n = false) ∧
  (currently_alive = true → n = 2 ∨ n = 3 → cell_lives currently_alive n = true) ∧
  (currently_alive = false → n = 3 → cell_lives currently_alive n = true) ∧
  (currently_alive = false → n = 2 → cell_lives currently_alive n = false) ∧
  cell_lives currently_alive n = next_status currently_alive n ∧
  (currently_alive, n, cell_lives currently_alive n) ∈ next_status_table ∧
  length next_status_table = 18%nat.
Proof.
  intros Hn.
  assert (n = 0 ∨ n = 1 ∨ n = 2 ∨ n = 3 ∨ n = 4 ∨ n = 5 ∨ n = 6 ∨ n = 7 ∨ n = 8)
    as Hcases by lia.
  destruct currently_alive;
    destruct Hcases as [->|[->|[->|[->|[->|[->|[->|[->| ->]]]]]]]];
    (repeat split; try reflexivity; try lia; try (intros; discriminate);
     try (intros _ [?|?]; (reflexivity || lia));
     unfold next_status_table; simpl; rewrite !elem_of_cons; tauto).
Qed.

Lemma cell_lives_table_witness :
  cell_lives false 3 = true ∧ cell_lives true 2 = true.
Proof.
  split.
  - exact (proj1 (proj2 (proj2 (proj2
      (cell_lives_table false 3 ltac:(lia))))) eq_refl eq_refl).
  - exact (proj1 (proj2 (proj2
      (cell_lives_table true 2 ltac:(lia)))) eq_refl (or_introl eq_refl)).
Defined.

(** The two formulations agree on every integer, not only on 0..8. *)
Lemma cell_lives_next_status (a : bool) (n : Z) :
  cell_lives a n = next_status a n.
Proof.
  unfold cell_lives, next_status.
  destruct (n <? 2), (3 <? n); reflexivity.
Qed.

(** ** Coordinate round trips *)

(** C3. On a grid with positive width and height, [to_1d] after [to_2d] is
    the identity on [0, width*height), [to_2d] after [to_1d] is the identity
    on valid coordinates; [to_2d] is (index / height, index mod height) and
    [to_1d] is second + first * height.  The two maps send the valid indices
    and the valid coordinates onto each other. *)
Theorem to_1d_to_2d_roundtrip {E} (g : Grid E) :
  0 < m_width g → 0 < m_height g →
  (∀ i, 0 <= i < m_width g * m_height g → to_1d g (to_2d g i) = i) ∧
  (∀ c, 0 <= c.1 < m_width g → 0 <= c.2 < m_height g →
        to_2d g (to_1d g c) = c) ∧
  (∀ i, 0 <= i < m_width g * m_height g →
        to_2d g i = (i / m_height g, i mod m_height g) ∧
        0 <= (to_2d g i).1 < m_width g ∧ 0 <= (to_2d g i).2 < m_height g) ∧
  (∀ c, to_1d g c = c.2 + c.1 * m_height g) ∧
  (∀ c, 0 <= c.1 < m_width g → 0 <= c.2 < m_height g →
        0 <= to_1d g c < m_width g * m_height g).
Proof.
  intros Hw Hh. split; [|split; [|split; [|split]]].
  - intros i Hi. apply to_1d_to_2d; lia.
  - intros c Hx Hy. apply to_2d_to_1d; lia.
  - intros i Hi. split.
    + apply to_2d_floor; lia.
    + apply (to_2d_valid g i Hh Hi).
  - reflexivity.
  - intros c Hx Hy. apply (to_1d_range g c). split; done.
Qed.

Lemma to_1d_to_2d_roundtrip_witness :
  to_1d board_3x2 (to_2d board_3x2 5) = 5 ∧
  to_2d board_3x2 (to_1d board_3x2 (2, 1)) = (2, 1).
Proof.
  destruct (to_1d_to_2d_roundtrip board_3x2 ltac:(simpl; lia) ltac:(simpl; lia))
    as (H1 & H2 & _).
  split.
  - apply H1. simpl; lia.
  - apply H2; simpl; lia.
Defined.

(** ** Array accesses *)

Lemma array_get_Some (a : list Z) (i : Z) :
  0 <= i < Z.of_nat (length a) →
  array_get a i = Some (default 0 (a !! Z.to_nat i)).
Proof.
  intros Hi. unfold array_get.
  destruct (Z.leb_spec 0 i); [|lia].
  destruct (lookup_lt_is_Some_2 a (Z.to_nat i) ltac:(lia)) as [v ->]. done.
Qed.

Lemma array_get_None (a : list Z) (i : Z) :
  array_get a i = None ↔ i < 0 ∨ Z.of_nat (length a) <= i.
Proof.
  unfold array_get. destruct (Z.leb_spec 0 i).
  - rewrite lookup_ge_None. lia.
  - split; [lia | done].
Qed.

Lemma array_set_Some (a : list Z) (i v : Z) :
  0 <= i < Z.of_nat (length a) →
  array_set a i v = Some (<[Z.to_nat i := v]> a).
Proof.
  intros Hi. unfold array_set.
  destruct (Z.leb_spec 0 i); [|lia].
  destruct (Z.ltb_spec i (Z.of_nat (length a))); [done|lia].
Qed.

Lemma array_set_None (a : list Z) (i v : Z) :
  array_set a i v = None ↔ i < 0 ∨ Z.of_nat (length a) <= i.
Proof.
  unfold array_set.
  destruct (Z.leb_spec 0 i), (Z.ltb_spec i (Z.of_nat (length a))); simpl;
    split; intros; try lia; try done.
Qed.

Lemma array_set_inv (a a' : list Z) (i v : Z) :
  array_set a i v = Some a' →
  0 <= i < Z.of_nat (length a) ∧ a' = <[Z.to_nat i := v]> a.
Proof.
  unfold array_set.
  destruct (Z.leb_spec 0 i), (Z.ltb_spec i (Z.of_nat (length a))); simpl;
    intros [= <-]; split; (lia || done).
Qed.

Section accesses.
Context {E : Type}.
Implicit Types (g : Grid E) (idx i : Z) (c : Z * Z).

Lemma within_valid g c : within g c = true ↔ valid_coord g c.
Proof.
  unfold within, valid_coord. rewrite !andb_true_iff, !Z.ltb_lt. lia.
Qed.

Lemma within_in_board g c : within g c = in_board g c.
Proof.
  unfold within, in_board.
  destruct (Z.ltb_spec (-1) c.1), (Z.leb_spec 0 c.1); try lia;
  destruct (Z.ltb_spec (-1) c.2), (Z.leb_spec 0 c.2); try lia; done.
Qed.

Lemma value_at_valid g c :
  Grid_wf g → valid_coord g c → value_at g c = Some (status_at g c).
Proof.
  intros (Hw & Hh & Hmax & Hlen) Hc.
  pose proof (to_1d_range g c Hc).
  unfold value_at, status_at. rewrite array_get_Some by lia. done.
Qed.

Lemma contents_at_valid g c :
  Grid_wf g → valid_coord g c →
  m_contents g !! Z.to_nat (c.2 + c.1 * m_height g) = Some (status_at g c).
Proof.
  intros (Hw & Hh & Hmax & Hlen) Hc.
  pose proof (to_1d_range g c Hc) as Hr. unfold to_1d in Hr; simpl in Hr.
  unfold status_at.
  destruct (lookup_lt_is_Some_2 (m_contents g)
              (Z.to_nat (c.2 + c.1 * m_height g)) ltac:(lia)) as [v ->].
  done.
Qed.

Lemma activate_valid g c :
  Grid_wf g → valid_coord g c →
  activate g c = Some (set_contents g (<[Z.to_nat (to_1d g c) := 1]> (m_contents g))).
Proof.
  intros (Hw & Hh & Hmax & Hlen) Hc.
  pose proof (to_1d_range g c Hc).
  unfold activate. rewrite array_set_Some by lia. done.
Qed.

Lemma deactivate_valid g c :
  Grid_wf g → valid_coord g c →
  deactivate g c = Some (set_contents g (<[Z.to_nat (to_1d g c) := 0]> (m_contents g))).
Proof.
  intros (Hw & Hh & Hmax & Hlen) Hc.
  pose proof (to_1d_range g c Hc).
  unfold deactivate. rewrite array_set_Some by lia. done.
Qed.

Lemma set_contents_wf g a :
  Grid_wf g → length a = length (m_contents g) → Grid_wf (set_contents g a).
Proof.
  intros (Hw & Hh & Hmax & Hlen) Ha. unfold Grid_wf; simpl.
  rewrite Ha. done.
Qed.

End accesses.

(** ** Bounds safety *)

(** C7, as amended.  A coordinate with [0 <= c.1 < width] and
    [0 <= c.2 < height] resolves to a linear index in [0, width*height)
    without overflow, and [value_at], [activate] and [deactivate] succeed on
    it.  For any coordinate on which the [int] arithmetic of [to_1d] does
    not overflow, the access is out of bounds exactly when
    [c.2 + c.1 * height] falls outside [0, width*height). *)
Theorem access_in_range_iff {E} (g : Grid E) (c : Z * Z) :
  Grid_wf g →
  (valid_coord g c →
     0 <= to_1d g c < m_width g * m_height g ∧
     (Grid_fits g → to_1d_defined g c) ∧
     is_Some (value_at g c) ∧ is_Some (activate g c) ∧
     is_Some (deactivate g c)) ∧
  (to_1d_defined g c →
   let out_of_range :=
     to_1d g c < 0 ∨ m_width g * m_height g <= to_1d g c in
   (value_at g c = None ↔ out_of_range) ∧
   (activate g c = None ↔ out_of_range) ∧
   (deactivate g c = None ↔ out_of_range)).
Proof.
  intros Hwf. split.
  - intros Hc. split; [by apply to_1d_range|]. split.
    + intros Hfit.
      destruct (to_1d_fits_int g c Hwf Hfit Hc) as [Hprod Hsum].
      pose proof (to_1d_range g c Hc) as Hr.
      destruct Hwf as (Hw & Hh & Hmax & Hlen). destruct Hc as [Hx Hy].
      unfold to_1d_defined. unfold to_1d in Hsum, Hr.
      unfold Grid_fits, fits_int, INT_MIN, INT_MAX in *.
      repeat split; nia.
    + rewrite value_at_valid, activate_valid, deactivate_valid by done.
      repeat split; eauto.
  - intros _. destruct Hwf as (Hw & Hh & Hmax & Hlen). simpl.
    unfold value_at, activate, deactivate.
    split; [|split].
    + rewrite array_get_None. lia.
    + rewrite bind_None. split.
      * intros [H|(a & _ & [=])]. apply array_set_None in H. lia.
      * intros H. left. apply array_set_None. lia.
    + rewrite bind_None. split.
      * intros [H|(a & _ & [=])]. apply array_set_None in H. lia.
      * intros H. left. apply array_set_None. lia.
Qed.

Lemma access_in_range_iff_witness :
  (0 <= to_1d board_3x2 (2, 1) < 3 * 2 ∧
   is_Some (value_at board_3x2 (2, 1)) ∧
   is_Some (activate board_3x2 (2, 1)) ∧
   is_Some (deactivate board_3x2 (2, 1))) ∧
  (value_at board_3x2 (3, 0) = None ∧ activate board_3x2 (3, 0) = None) ∧
  value_at board_3x2 (0, 2) ≠ None.
Proof.
  assert (Grid_wf board_3x2) as Hwf by (unfold Grid_wf; simpl; lia).
  assert (∀ c, -10 <= c.1 <= 10 → -10 <= c.2 <= 10 →
               to_1d_defined board_3x2 c) as Hdef.
  { intros [x y] Hx Hy. simpl in Hx, Hy.
    unfold to_1d_defined, fits_int, INT_MIN, INT_MAX; simpl. lia. }
  split; [|split].
  - destruct (proj1 (access_in_range_iff board_3x2 (2, 1) Hwf))
      as (Hr & _ & Hv & Ha & Hd); [unfold valid_coord; simpl; lia|].
    split; [exact Hr|]. split; [exact Hv|]. split; [exact Ha | exact Hd].
  - destruct (proj2 (access_in_range_iff board_3x2 (3, 0) Hwf))
      as (Hv & Ha & _); [apply Hdef; simpl; lia|].
    split; [apply Hv | apply Ha]; right; unfold to_1d; simpl; lia.
  - destruct (proj2 (access_in_range_iff board_3x2 (0, 2) Hwf))
      as (Hv & _); [apply Hdef; simpl; lia|].
    intros Hnone. apply Hv in Hnone. unfold to_1d in Hnone.
    simpl in Hnone. lia.
Defined.

(** C7 as stated fails: on the 2×2 board the coordinate (0, 2) violates the
    precondition, yet it resolves to the linear index 2 and every access
    through it lands inside the array, on the cell (1, 0). *)
Lemma access_outside_precondition_in_range :
  Grid_wf board_2x2 ∧
  ¬ valid_coord board_2x2 (0, 2) ∧
  to_1d board_2x2 (0, 2) = 2 ∧
  value_at board_2x2 (0, 2) = Some 0 ∧
  value_at board_2x2 (0, 2) = value_at board_2x2 (1, 0) ∧
  activate board_2x2 (0, 2) = Some (board 1 2 2 [0; 1; 1; 1]) ∧
  deactivate board_2x2 (0, 2) = Some (board 1 2 2 [0; 1; 0; 1]) ∧
  ¬ (∀ (g : Grid Z) (c : Z * Z),
       Grid_wf g → ¬ valid_coord g c →
       value_at g c = None ∧ activate g c = None ∧ deactivate g c = None).
Proof.
  assert (Grid_wf board_2x2) as Hwf by (unfold Grid_wf; simpl; lia).
  assert (¬ valid_coord board_2x2 (0, 2)) as Hc
    by (unfold valid_coord; simpl; lia).
  split; [exact Hwf|]. split; [exact Hc|].
  split; [reflexivity|]. split; [reflexivity|]. split; [reflexivity|].
  split; [reflexivity|]. split; [reflexivity|].
  intros H. destruct (H board_2x2 (0, 2) Hwf Hc) as [Hv _]. discriminate Hv.
Qed.

(** ** Neighbour enumeration *)

Lemma neighbor_offsets_spec (dx dy : Z) :
  (dx, dy) ∈ m_neighbor_offsets ↔
  -1 <= dx <= 1 ∧ -1 <= dy <= 1 ∧ ¬ (dx = 0 ∧ dy = 0).
Proof.
  unfold m_neighbor_offsets. rewrite !elem_of_cons, elem_of_nil. split.
  - intros H.
    repeat (destruct H as [H|H]; [injection H as -> ->; lia|]). done.
  - intros (Hx & Hy & Hne).
    assert (dx = -1 ∨ dx = 0 ∨ dx = 1) as [->|[->| ->]] by lia;
    assert (dy = -1 ∨ dy = 0 ∨ dy = 1) as [->|[->| ->]] by lia;
    try (exfalso; apply Hne; split; reflexivity);
    repeat (first [left; reflexivity | right]).
Qed.

Lemma neighbor_offsets_NoDup : NoDup m_neighbor_offsets.
Proof. apply (bool_decide_unpack _). by vm_compute. Qed.

Lemma shift_inj (c o1 o2 : Z * Z) : shift c o1 = shift c o2 → o1 = o2.
Proof.
  destruct o1, o2. unfold shift; simpl. intros [= H1 H2]. f_equal; lia.
Qed.

Section neighbourhoods.
Context {E : Type}.
Implicit Types (g : Grid E) (idx i : Z) (c : Z * Z).

Lemma neighbors_loop_closed g c offsets acc :
  Grid_wf g →
  neighbors_loop g c offsets acc = Some (acc ++ neighbor_cells g c offsets).
Proof.
  intros Hwf. revert acc.
  induction offsets as [|o offsets IH]; intros acc; simpl.
  - unfold neighbor_cells; simpl. by rewrite app_nil_r.
  - change (c.1 + o.1, c.2 + o.2) with (shift c o).
    unfold neighbor_cells. rewrite fmap_cons, filter_cons.
    destruct (within g (shift c o)) eqn:Hin.
    + rewrite decide_True by done.
      rewrite value_at_valid by (done || by apply within_valid). simpl.
      rewrite IH. unfold neighbor_cells. by rewrite <- app_assoc.
    + rewrite decide_False by done. apply IH.
Qed.

Lemma neighbors_closed g idx :
  Grid_wf g →
  neighbors g idx = Some (neighbor_cells g (to_2d g idx) m_neighbor_offsets).
Proof. intros Hwf. unfold neighbors. by rewrite neighbors_loop_closed. Qed.

Lemma elem_of_neighbor_cells g c offsets cell :
  cell ∈ neighbor_cells g c offsets ↔
  ∃ o, o ∈ offsets ∧ within g (shift c o) = true ∧
       cell = mkCell (status_at g (shift c o)) (shift c o).
Proof.
  unfold neighbor_cells. rewrite list_elem_of_fmap. split.
  - intros (n & -> & Hn). apply list_elem_of_filter in Hn as [Hin Hn].
    apply list_elem_of_fmap in Hn as (o & -> & Ho). eauto.
  - intros (o & Ho & Hin & ->). exists (shift c o). split; [done|].
    apply list_elem_of_filter. split; [done|].
    apply list_elem_of_fmap. eauto.
Qed.

Lemma coord_neighbor_cells g c offsets :
  coord <$> neighbor_cells g c offsets
  = filter (λ n, within g n = true) (shift c <$> offsets).
Proof.
  unfold neighbor_cells.
  induction (filter (λ n, within g n = true) (shift c <$> offsets))
    as [|n l IH]; [done|].
  rewrite !fmap_cons. f_equal. exact IH.
Qed.

Lemma status_at_index g i :
  0 <= i → 0 < m_height g →
  status_at g (to_2d g i) = default 0 (m_contents g !! Z.to_nat i).
Proof.
  intros Hi Hh. unfold status_at.
  change ((to_2d g i).2 + (to_2d g i).1 * m_height g)
    with (to_1d g (to_2d g i)).
  by rewrite to_1d_to_2d.
Qed.

Lemma neighborhoods_loop_closed g indices acc :
  Grid_wf g → (∀ i, i ∈ indices → 0 <= i < m_max g) →
  neighborhoods_loop g indices acc = Some (acc ++ (hood_of g <$> indices)).
Proof.
  intros Hwf. revert acc.
  induction indices as [|i indices IH]; intros acc Hin; simpl.
  - by rewrite app_nil_r.
  - destruct Hwf as (Hw & Hh & Hmax & Hlen).
    assert (0 <= i < m_max g) as Hi by (apply Hin; left).
    rewrite array_get_Some by lia. simpl.
    rewrite neighbors_closed by done. simpl.
    rewrite IH by (intros; apply Hin; by right).
    unfold hood_of at 2. rewrite status_at_index by lia.
    by rewrite <- app_assoc.
Qed.

Lemma neighborhoods_closed g :
  Grid_wf g → neighborhoods g = Some (hood_of g <$> seqZ 0 (m_max g)).
Proof.
  intros Hwf. unfold neighborhoods.
  rewrite neighborhoods_loop_closed; [done..|].
  intros i Hi%elem_of_seqZ. lia.
Qed.

End neighbourhoods.

(** C4. For a well-formed grid and a centre inside it, [neighbors] returns a
    vector in which a candidate centre + offset, for an offset among the 8
    vectors (±1,±1), (±1,0), (0,±1), occurs if and only if both of its
    components are inside the board; every element is such a candidate (so
    it lies within distance 1 of the centre: nothing wraps around), occurs
    once, and carries the status stored at its coordinate: the entry of
    [m_contents] at index second + first * height, which is also what
    [value_at] reads there. *)
Theorem neighbors_in_bounds_iff {E} (g : Grid E) (idx : Z) :
  Grid_wf g → 0 <= idx < m_max g →
  ∃ cells,
    neighbors g idx = Some cells ∧
    (∀ dx dy, (dx, dy) ∈ m_neighbor_offsets ↔
              -1 <= dx <= 1 ∧ -1 <= dy <= 1 ∧ ¬ (dx = 0 ∧ dy = 0)) ∧
    (∀ o, o ∈ m_neighbor_offsets →
          let n := ((to_2d g idx).1 + o.1, (to_2d g idx).2 + o.2) in
          (∃ cell, cell ∈ cells ∧ coord cell = n) ↔
          (0 <= n.1 < m_width g ∧ 0 <= n.2 < m_height g)) ∧
    (∀ cell, cell ∈ cells →
          (∃ o, o ∈ m_neighbor_offsets ∧
                coord cell = ((to_2d g idx).1 + o.1, (to_2d g idx).2 + o.2)) ∧
          0 <= (coord cell).1 < m_width g ∧
          0 <= (coord cell).2 < m_height g ∧
          m_contents g
            !! Z.to_nat ((coord cell).2 + (coord cell).1 * m_height g)
          = Some (m_status cell) ∧
          value_at g (coord cell) = Some (m_status cell)) ∧
    NoDup (coord <$> cells).
Proof.
  intros Hwf Hidx.
  exists (neighbor_cells g (to_2d g idx) m_neighbor_offsets).
  split; [by apply neighbors_closed|].
  split; [apply neighbor_offsets_spec|].
  split; [|split].
  - intros o Ho n. subst n.
    change ((to_2d g idx).1 + o.1, (to_2d g idx).2 + o.2)
      with (shift (to_2d g idx) o).
    split.
    + intros (cell & Hcell & Hcoord).
      apply elem_of_neighbor_cells in Hcell as (o' & _ & Hin & ->).
      simpl in Hcoord. rewrite <- Hcoord. by apply within_valid.
    + intros Hvalid.
      exists (mkCell (status_at g (shift (to_2d g idx) o))
                     (shift (to_2d g idx) o)).
      split; [|reflexivity].
      apply elem_of_neighbor_cells. exists o.
      split; [done|]. split; [by apply within_valid|done].
  - intros cell Hcell.
    apply elem_of_neighbor_cells in Hcell as (o & Ho & Hin & ->). simpl.
    apply within_valid in Hin.
    split; [by exists o|].
    split; [apply Hin|]. split; [apply Hin|].
    split; [exact (contents_at_valid g (shift (to_2d g idx) o) Hwf Hin)|].
    by apply value_at_valid.
  - rewrite coord_neighbor_cells. apply NoDup_filter.
    apply NoDup_fmap_2_strong; [|apply neighbor_offsets_NoDup].
    intros o1 o2 _ _. apply shift_inj.
Qed.

Lemma neighbors_in_bounds_iff_witness :
  ∃ cells cell,
    neighbors board_3x2 3 = Some cells ∧ length cells = 5%nat ∧
    cell ∈ cells ∧ coord cell = (0, 0) ∧ m_status cell = 1.
Proof.
  destruct (neighbors_in_bounds_iff board_3x2 3)
    as (cells & Hcells & _ & Hiff & Hcarry & _).
  - unfold Grid_wf; simpl; lia.
  - simpl; lia.
  - destruct (proj2 (Hiff (-1, -1) ltac:(apply neighbor_offsets_spec; lia)))
      as (cell & Hcell & Hcoord);
      [change (to_2d board_3x2 3) with (1, 1); simpl; lia|].
    change (to_2d board_3x2 3) with (1, 1) in Hcoord. simpl in Hcoord.
    destruct (Hcarry cell Hcell) as (_ & _ & _ & Hstored & _).
    rewrite Hcoord in Hstored. simpl in Hstored.
    exists cells, cell. split; [exact Hcells|].
    split; [vm_compute in Hcells; injection Hcells as <-; reflexivity|].
    split; [exact Hcell|]. split; [exact Hcoord|].
    injection Hstored as <-. reflexivity.
Defined.

(** ** Sizes of the neighbourhoods *)

Section sizes.
Context {E : Type}.
Implicit Types (g : Grid E) (idx i : Z) (c : Z * Z).

Lemma length_neighbor_cells g c offsets :
  Z.of_nat (length (neighbor_cells g c offsets))
  = sum_Z ((λ o, if within g (shift c o) then 1 else 0) <$> offsets).
Proof.
  unfold neighbor_cells. rewrite length_fmap.
  induction offsets as [|o offsets IH]; [done|].
  rewrite !fmap_cons, filter_cons. simpl sum_Z.
  destruct (within g (shift c o)) eqn:Hin.
  - rewrite decide_True by done. simpl length. lia.
  - rewrite decide_False by done. lia.
Qed.

Lemma neighbor_count_by_position g c :
  2 <= m_width g → 2 <= m_height g → valid_coord g c →
  (is_corner g c = true →
     length (neighbor_cells g c m_neighbor_offsets) = 3%nat) ∧
  (is_edge g c = true →
     length (neighbor_cells g c m_neighbor_offsets) = 5%nat) ∧
  (is_interior g c = true →
     length (neighbor_cells g c m_neighbor_offsets) = 8%nat).
Proof.
  intros Hw Hh [Hx Hy].
  pose proof (length_neighbor_cells g c m_neighbor_offsets) as Hlen.
  destruct c as [x y]. simpl in Hx, Hy.
  unfold is_corner, is_edge, is_interior, border_x, border_y. simpl.
  set (n := length (neighbor_cells g (x, y) m_neighbor_offsets)) in *.
  unfold m_neighbor_offsets, within, shift in Hlen. simpl in Hlen.
  revert Hlen.
  destruct (Z.eqb_spec x 0), (Z.eqb_spec x (m_width g - 1)); try lia;
  destruct (Z.eqb_spec y 0), (Z.eqb_spec y (m_height g - 1)); try lia;
  simpl; decide_ltb; simpl; intros Hlen;
  (split; [|split]); intros; (discriminate || lia).
Qed.

Lemma lookup_hoods g i :
  0 <= i < m_max g →
  (hood_of g <$> seqZ 0 (m_max g)) !! Z.to_nat i = Some (hood_of g i).
Proof.
  intros Hi. rewrite list_lookup_fmap, lookup_seqZ_lt by lia. simpl.
  do 2 f_equal. lia.
Qed.

End sizes.

(** C5, as amended.  On every well-formed grid [neighborhoods] returns
    exactly height * width elements, the i-th one centred on the cell of
    linear index i with the status stored there; when both dimensions are at
    least 2, the neighbour vector has 3 elements at a corner, 5 on an edge
    off the corners, 8 in the interior. *)
Theorem neighborhoods_sizes {E} (g : Grid E) :
  Grid_wf g →
  ∃ hoods,
    neighborhoods g = Some hoods ∧
    Z.of_nat (length hoods) = m_height g * m_width g ∧
    (∀ i, 0 <= i < m_height g * m_width g →
       ∃ hood, hoods !! Z.to_nat i = Some hood ∧
         cell_location hood = to_2d g i ∧
         array_get (m_contents g) i = Some (m_status (m_cell hood)) ∧
         neighbors g i = Some (m_neighbors hood) ∧
         (2 <= m_width g → 2 <= m_height g →
            (is_corner g (to_2d g i) = true →
               length (m_neighbors hood) = 3%nat) ∧
            (is_edge g (to_2d g i) = true →
               length (m_neighbors hood) = 5%nat) ∧
            (is_interior g (to_2d g i) = true →
               length (m_neighbors hood) = 8%nat))).
Proof.
  intros Hwf. pose proof Hwf as (Hw & Hh & Hmax & Hlen).
  exists (hood_of g <$> seqZ 0 (m_max g)).
  split; [by apply neighborhoods_closed|].
  split; [rewrite length_fmap, length_seqZ; lia|].
  intros i Hi. exists (hood_of g i).
  split; [apply lookup_hoods; lia|].
  split; [done|].
  split; [rewrite array_get_Some by lia; simpl;
          by rewrite status_at_index by lia|].
  split; [by apply neighbors_closed|].
  intros Hw2 Hh2. simpl.
  apply neighbor_count_by_position; [done..|].
  apply to_2d_valid; lia.
Qed.

Lemma neighborhoods_sizes_witness :
  ∃ hoods, neighborhoods blinker_a = Some hoods ∧ length hoods = 25%nat.
Proof.
  destruct (neighborhoods_sizes blinker_a) as (hoods & Hhoods & Hlen & _).
  - unfold Grid_wf; simpl; lia.
  - exists hoods. split; [exact Hhoods|]. simpl in Hlen. lia.
Defined.

(** C5 as stated fails on boards with a dimension of 1: the only cell of
    the 1×1 board is a corner and has no neighbour at all. *)
Lemma corner_of_1x1_has_no_neighbors :
  Grid_wf board_1x1 ∧
  neighborhoods board_1x1 = Some [mkNeighborhood (mkCell 0 (0, 0)) []] ∧
  is_corner board_1x1 (0, 0) = true ∧
  ¬ (∀ (g : Grid Z) hoods (i : nat) hood,
       Grid_wf g → neighborhoods g = Some hoods → hoods !! i = Some hood →
       is_corner g (cell_location hood) = true →
       length (m_neighbors hood) = 3%nat).
Proof.
  assert (Grid_wf board_1x1) as Hwf by (unfold Grid_wf; simpl; lia).
  split; [exact Hwf|]. split; [reflexivity|]. split; [reflexivity|].
  intros H.
  specialize (H board_1x1 _ 0%nat _ Hwf eq_refl eq_refl eq_refl).
  discriminate H.
Qed.

(** ** One generation *)

Lemma eight_connected_eq :
  eight_connected
  = [(-1, -1); (-1, 0); (-1, 1); (0, -1); (0, 1); (1, -1); (1, 0); (1, 1)].
Proof. reflexivity. Qed.

Lemma sum_Z_cons (x : Z) (l : list Z) : sum_Z (x :: l) = x + sum_Z l.
Proof. reflexivity. Qed.

Lemma count_alive_fold (cells : list Cell) (acc : Z) :
  fold_left (λ count i, if is_alive i then count + 1 else count) cells acc
  = acc + sum_Z ((λ cell, if is_alive cell then 1 else 0) <$> cells).
Proof.
  revert acc. induction cells as [|cell cells IH]; intros acc.
  - simpl. lia.
  - rewrite fmap_cons, sum_Z_cons. cbn [fold_left]. rewrite IH.
    destruct (is_alive cell); lia.
Qed.

Section generation.
Context {E : Type}.
Implicit Types (g : Grid E) (idx i : Z) (c : Z * Z).

Lemma sum_alive_neighbor_cells g c offsets :
  sum_Z ((λ cell, if is_alive cell then 1 else 0) <$> neighbor_cells g c offsets)
  = sum_Z ((λ o, if living g (shift c o) then 1 else 0) <$> offsets).
Proof.
  unfold neighbor_cells.
  induction offsets as [|o offsets IH]; [done|].
  rewrite !fmap_cons, filter_cons, sum_Z_cons.
  unfold living at 1. rewrite <- within_in_board.
  destruct (within g (shift c o)) eqn:Hin.
  - rewrite decide_True by done. rewrite !fmap_cons, sum_Z_cons.
    rewrite IH. done.
  - rewrite decide_False by done. rewrite IH. done.
Qed.

Lemma count_alive_neighbors_hood g i :
  count_alive_neighbors (hood_of g i) = living_neighbor_count g (to_2d g i).
Proof.
  unfold count_alive_neighbors, hood_of; simpl.
  rewrite count_alive_fold, sum_alive_neighbor_cells.
  unfold living_neighbor_count. rewrite eight_connected_eq.
  unfold m_neighbor_offsets. simpl. lia.
Qed.

Lemma verdict_hood g i :
  0 < m_height g → 0 <= i < m_width g * m_height g →
  verdict (hood_of g i)
  = if next_status (living g (to_2d g i))
                   (living_neighbor_count g (to_2d g i)) then 1 else 0.
Proof.
  intros Hh Hi. unfold verdict.
  rewrite count_alive_neighbors_hood, cell_lives_next_status.
  replace (cell_status (hood_of g i)) with (living g (to_2d g i)); [done|].
  unfold living. rewrite <- within_in_board.
  rewrite (proj2 (within_valid g (to_2d g i))) by (by apply to_2d_valid).
  done.
Qed.

Lemma write_verdict g c (b : bool) :
  Grid_wf g → valid_coord g c →
  (if b then activate g c else deactivate g c)
  = Some (set_contents g
            (<[Z.to_nat (to_1d g c) := if b then 1 else 0]> (m_contents g))).
Proof.
  intros Hwf Hc. destruct b; [by apply activate_valid|by apply deactivate_valid].
Qed.

Lemma set_contents_id g : set_contents g (m_contents g) = g.
Proof. by destruct g. Qed.

Lemma set_contents_twice g a b :
  set_contents (set_contents g a) b = set_contents g b.
Proof. done. Qed.

(** The loop of [applyTo] from index [k] on: the cells below [k] keep what
    they hold, the others receive the verdicts of the given neighbourhoods,
    whatever the board holds while the loop runs. *)
Lemma applyTo_loop_closed (H : Z → Neighborhood) (n : nat) :
  ∀ (k : Z) g,
    Grid_wf g → 0 <= k → k + Z.of_nat n = m_max g →
    (∀ i, 0 <= i < m_max g → cell_location (H i) = to_2d g i) →
    applyTo_loop (H <$> seqZ k (Z.of_nat n)) g
    = Some (set_contents g
              (take (Z.to_nat k) (m_contents g)
               ++ (verdict ∘ H <$> seqZ k (Z.of_nat n)))).
Proof.
  induction n as [|n IH]; intros k g Hwf Hk Hkn Hloc.
  - simpl. rewrite app_nil_r.
    destruct Hwf as (_ & _ & _ & Hlen).
    rewrite take_ge by lia. by rewrite set_contents_id.
  - pose proof Hwf as (Hw & Hh & Hmax & Hlen).
    rewrite seqZ_cons by lia. rewrite !fmap_cons.
    replace (Z.pred (Z.of_nat (S n))) with (Z.of_nat n) by lia.
    cbn [applyTo_loop].
    rewrite Hloc by lia.
    rewrite write_verdict by (done || apply to_2d_valid; lia).
    rewrite to_1d_to_2d by lia. cbn [mbind option_bind].
    set (v := if cell_lives _ _ then 1 else 0).
    rewrite IH; cbn [m_contents m_max set_contents]; try lia.
    + f_equal. unfold set_contents; cbn. f_equal.
      replace (Z.to_nat (Z.succ k)) with (S (Z.to_nat k)) by lia.
      rewrite (take_S_r _ _ v) by (apply list_lookup_insert_eq; lia).
      rewrite take_insert_ge by lia.
      rewrite <- app_assoc. done.
    + apply set_contents_wf; [done|]. by rewrite length_insert.
    + intros i Hi. rewrite Hloc by lia. done.
Qed.

Lemma applyTo_closed g :
  Grid_wf g →
  applyTo g
  = Some (set_contents g (verdict ∘ hood_of g <$> seqZ 0 (m_max g))).
Proof.
  intros Hwf. pose proof Hwf as (Hw & Hh & Hmax & Hlen).
  unfold applyTo. rewrite neighborhoods_closed by done.
  cbn [mbind option_bind].
  replace (m_max g) with (Z.of_nat (Z.to_nat (m_max g))) by lia.
  rewrite applyTo_loop_closed; [|done|lia|lia|done].
  done.
Qed.

Lemma next_generation_verdicts g :
  Grid_wf g →
  next_generation g = (verdict ∘ hood_of g <$> seqZ 0 (m_max g)).
Proof.
  intros (Hw & Hh & Hmax & Hlen). unfold next_generation. rewrite <- Hmax.
  apply list_fmap_ext. intros j i Hi.
  apply lookup_seqZ in Hi as [-> Hj]. simpl.
  rewrite verdict_hood by lia. rewrite to_2d_floor by lia. done.
Qed.

Lemma applyTo_sync_step g : Grid_wf g → applyTo g = Some (sync_step g).
Proof.
  intros Hwf. rewrite applyTo_closed by done.
  unfold sync_step. by rewrite next_generation_verdicts.
Qed.

Lemma sync_step_wf g : Grid_wf g → Grid_wf (sync_step g).
Proof.
  intros Hwf. pose proof Hwf as (Hw & Hh & Hmax & Hlen).
  unfold sync_step, Grid_wf; simpl. unfold next_generation.
  rewrite length_fmap, length_seqZ. lia.
Qed.

Lemma value_at_sync_step g c :
  Grid_wf g → valid_coord g c →
  value_at (sync_step g) c
  = Some (if next_status (living g c) (living_neighbor_count g c)
          then 1 else 0).
Proof.
  intros Hwf Hc. pose proof Hwf as (Hw & Hh & Hmax & Hlen).
  pose proof (to_1d_range g c Hc) as Hr.
  unfold value_at, sync_step; simpl.
  change (to_1d (set_contents g (next_generation g)) c) with (to_1d g c).
  unfold array_get. destruct (Z.leb_spec 0 (to_1d g c)); [|lia].
  unfold next_generation.
  rewrite list_lookup_fmap, lookup_seqZ_lt by lia. simpl.
  destruct c as [x y]. unfold to_1d; simpl.
  destruct Hc as [Hx Hy]; simpl in Hx, Hy.
  unfold to_1d in Hr; simpl in Hr.
  replace (0 + Z.of_nat (Z.to_nat (y + x * m_height g)))
    with (y + x * m_height g) by lia.
  destruct (div_mod_of_pair x y (m_height g) Hy) as [-> ->]. done.
Qed.

End generation.

(** C2. On every well-formed grid, [applyTo] succeeds and the grid it leaves
    is the one of the reference synchronous step, in which the new statuses
    are computed into a second buffer from the old board only: every cell's
    status after the call is [next_status] of its status before the call and
    of the number of its living neighbours before the call. *)
Theorem applyTo_refines_sync_step {E} (g : Grid E) :
  Grid_wf g →
  ∃ g',
    applyTo g = Some g' ∧
    g' = sync_step g ∧
    ∀ c, valid_coord g c →
      ∃ old,
        value_at g c = Some old ∧
        value_at g' c
        = Some (if next_status (negb (old =? 0)) (living_neighbor_count g c)
                then 1 else 0).
Proof.
  intros Hwf. exists (sync_step g).
  split; [by apply applyTo_sync_step|]. split; [done|].
  intros c Hc. exists (status_at g c).
  split; [by apply value_at_valid|].
  rewrite value_at_sync_step by done.
  unfold living. rewrite <- within_in_board.
  rewrite (proj2 (within_valid g c)) by done. done.
Qed.

Lemma applyTo_refines_sync_step_witness :
  ∃ g', applyTo board_3x2 = Some g' ∧ g' = sync_step board_3x2.
Proof.
  destruct (applyTo_refines_sync_step board_3x2) as (g' & Happ & Hg' & _).
  - unfold Grid_wf; simpl; lia.
  - exists g'. split; [exact Happ | exact Hg'].
Defined.

(** ** Construction *)

Section construction.
Context `{RandomEngine E}.
Implicit Types (g : Grid E) (e : E).

Lemma fill_contents_length n dist e :
  length (fill_contents n dist e).1 = n.
Proof.
  revert e. induction n as [|n IH]; intros e; simpl; [done|].
  destruct (uniform_int dist e) as [v e'].
  specialize (IH e'). destruct (fill_contents n dist e') as [vs e''].
  simpl in *. by rewrite IH.
Qed.

Lemma fill_contents_range n a b e :
  a <= b → Forall (λ v, a <= v <= b) (fill_contents n (a, b) e).1.
Proof.
  intros Hab. revert e. induction n as [|n IH]; intros e; simpl.
  - constructor.
  - pose proof (uniform_int_range a b e Hab) as Hv.
    destruct (uniform_int (a, b) e) as [v e'].
    specialize (IH e'). destruct (fill_contents n (a, b) e') as [vs e''].
    simpl in *. by constructor.
Qed.

Lemma engine_after_S dist n e :
  engine_after dist (S n) e = engine_after dist n (uniform_int dist e).2.
Proof. unfold engine_after. by rewrite Nat.iter_succ_r. Qed.

Lemma fill_contents_engine n dist e :
  (fill_contents n dist e).2 = engine_after dist n e.
Proof.
  revert e. induction n as [|n IH]; intros e; [done|].
  rewrite engine_after_S. simpl.
  destruct (uniform_int dist e) as [v e'].
  specialize (IH e'). destruct (fill_contents n dist e') as [vs e''].
  simpl in *. done.
Qed.

(** The i-th cell receives the i-th draw. *)
Lemma fill_contents_lookup n dist e (i : nat) :
  (i < n)%nat →
  (fill_contents n dist e).1 !! i
  = Some (uniform_int dist (engine_after dist i e)).1.
Proof.
  revert e i. induction n as [|n IH]; intros e i Hi; [lia|].
  destruct i as [|i].
  - simpl. destruct (uniform_int dist e) as [v e'].
    by destruct (fill_contents n dist e').
  - rewrite engine_after_S. simpl.
    destruct (uniform_int dist e) as [v e'].
    specialize (IH e' i). destruct (fill_contents n dist e') as [vs e''].
    simpl in *. apply IH. lia.
Qed.

Lemma Grid_ctor_Some width height :
  0 <= width * height <= INT_MAX →
  Grid_ctor width height
  = Some (mkGrid
            (fill_contents (Z.to_nat (width * height)) (0, 1) default_engine).1
            width height (width * height)
            (fill_contents (Z.to_nat (width * height)) (0, 1) default_engine).2
            (0, 1)).
Proof.
  intros Hmax. unfold Grid_ctor.
  destruct (Z.leb_spec 0 (width * height)); [|lia].
  destruct (Z.leb_spec (width * height) INT_MAX); [|lia]. simpl.
  by destruct (fill_contents _ _ _).
Qed.

Lemma Grid_ctor_None width height :
  Grid_ctor width height = None ↔
  width * height < 0 ∨ INT_MAX < width * height.
Proof.
  unfold Grid_ctor.
  destruct (Z.leb_spec 0 (width * height));
    destruct (Z.leb_spec (width * height) INT_MAX); simpl;
    try destruct (fill_contents _ _ _); split; intros; (lia || done).
Qed.

End construction.

(** ** The board invariant *)

Section invariant.
Context {E : Type}.
Implicit Types (g : Grid E) (c : Z * Z).

Lemma binary_cells_Forall g :
  m_width g * m_height g <= Z.of_nat (length (m_contents g)) →
  Forall (λ v, v = 0 ∨ v = 1) (m_contents g) → binary_cells g.
Proof.
  intros Hlen Hall i Hi.
  rewrite array_get_Some by lia.
  destruct (lookup_lt_is_Some_2 (m_contents g) (Z.to_nat i) ltac:(lia))
    as [v Hv].
  exists v. rewrite Hv. split; [done|].
  by apply (Forall_lookup_1 _ _ _ _ Hall Hv).
Qed.

Lemma binary_cells_insert g (j : nat) (v : Z) :
  v = 0 ∨ v = 1 → binary_cells g →
  binary_cells (set_contents g (<[j := v]> (m_contents g))).
Proof.
  intros Hv Hbin i Hi. simpl in Hi.
  destruct (Hbin i Hi) as (u & Hget & Hu).
  unfold array_get in *; simpl.
  destruct (Z.leb_spec 0 i); [|done].
  destruct (decide (j = Z.to_nat i)) as [->|Hne].
  - exists v. split; [|done].
    apply list_lookup_insert_eq. by apply lookup_lt_is_Some_1; eauto.
  - exists u. by rewrite list_lookup_insert_ne.
Qed.

Lemma binary_cells_write g c g' :
  binary_cells g → activate g c = Some g' ∨ deactivate g c = Some g' →
  binary_cells g' ∧ m_width g' = m_width g ∧ m_height g' = m_height g ∧
  m_max g' = m_max g ∧ length (m_contents g') = length (m_contents g).
Proof.
  intros Hbin [Hw|Hw]; unfold activate, deactivate in Hw;
    apply bind_Some in Hw as (a & Hset & [= <-]);
    apply array_set_inv in Hset as [_ ->];
    (split; [apply binary_cells_insert; auto|]);
    simpl; by rewrite length_insert.
Qed.

Lemma binary_cells_sync_step g : Grid_wf g → binary_cells (sync_step g).
Proof.
  intros (Hw & Hh & Hmax & Hlen).
  apply binary_cells_Forall; simpl; unfold next_generation.
  - rewrite length_fmap, length_seqZ. lia.
  - apply Forall_fmap, Forall_forall. intros i _. simpl.
    destruct (next_status _ _); auto.
Qed.

End invariant.

(** What the constructor delivers is well formed and fits an [int]. *)
Lemma Grid_ctor_wf `{RandomEngine E} (width height : Z) (g : Grid E) :
  0 < width → 0 < height → Grid_ctor width height = Some g →
  Grid_wf g ∧ Grid_fits g ∧ m_width g = width ∧ m_height g = height.
Proof.
  intros Hw Hh Hctor.
  destruct (decide (width * height <= INT_MAX)) as [Hmax|Hmax].
  - rewrite Grid_ctor_Some in Hctor by lia. injection Hctor as <-.
    unfold Grid_wf, Grid_fits; cbn. rewrite fill_contents_length. lia.
  - assert (Grid_ctor width height = None) as Hnone
      by (apply Grid_ctor_None; lia).
    congruence.
Qed.

(** C6. Construction with positive dimensions (whose product fits an
    [int]) yields a grid of these dimensions in which every linear index of
    [0, width*height) holds 0 or 1; [activate], [deactivate] and a full
    [applyTo] pass keep that true and leave width and height as they are. *)
Theorem grid_invariant_preserved `{RandomEngine E} :
  (∀ width height,
     0 < width → 0 < height → width * height <= INT_MAX →
     ∃ g : Grid E, Grid_ctor width height = Some g ∧
       m_width g = width ∧ m_height g = height ∧
       Grid_wf g ∧ binary_cells g) ∧
  (∀ (g g' : Grid E) c,
     Grid_wf g → binary_cells g →
     activate g c = Some g' ∨ deactivate g c = Some g' →
     Grid_wf g' ∧ binary_cells g' ∧
     m_width g' = m_width g ∧ m_height g' = m_height g) ∧
  (∀ (g : Grid E) c,
     Grid_wf g → valid_coord g c →
     is_Some (activate g c) ∧ is_Some (deactivate g c)) ∧
  (∀ g : Grid E,
     Grid_wf g → binary_cells g →
     ∃ g', applyTo g = Some g' ∧
       Grid_wf g' ∧ binary_cells g' ∧
       m_width g' = m_width g ∧ m_height g' = m_height g).
Proof.
  split; [|split; [|split]].
  - intros width height Hw Hh Hmax.
    rewrite Grid_ctor_Some by lia. eexists. split; [reflexivity|].
    split; [done|]. split; [done|].
    assert (Z.of_nat (length (fill_contents (Z.to_nat (width * height))
                                (0, 1) default_engine).1) = width * height)
      as Hlen by (rewrite fill_contents_length; lia).
    split; [unfold Grid_wf; simpl; lia|].
    apply binary_cells_Forall; simpl; [lia|].
    eapply Forall_impl; [apply fill_contents_range; lia|].
    simpl. intros v Hv. lia.
  - intros g g' c Hwf Hbin Hwrite.
    destruct (binary_cells_write g c g' Hbin Hwrite)
      as (Hbin' & Hw' & Hh' & Hm' & Hl').
    destruct Hwf as (Hw & Hh & Hmax & Hlen).
    split; [unfold Grid_wf; rewrite Hw', Hh', Hm', Hl'; done|]. done.
  - intros g c Hwf Hc.
    rewrite activate_valid, deactivate_valid by done. eauto.
  - intros g Hwf _. exists (sync_step g).
    split; [by apply applyTo_sync_step|].
    split; [by apply sync_step_wf|].
    split; [by apply binary_cells_sync_step|]. done.
Qed.

Lemma grid_invariant_preserved_witness :
  (∃ g : Grid Z, Grid_ctor 3 2 = Some g ∧ binary_cells g) ∧
  (∃ g', applyTo board_3x2 = Some g' ∧ binary_cells g').
Proof.
  destruct (@grid_invariant_preserved Z minstd_rand0) as (Hctor & _ & _ & Happ).
  split.
  - destruct (Hctor 3 2) as (g & Hg & _ & _ & _ & Hbin);
      [lia | lia | unfold INT_MAX; lia |].
    exists g. split; [exact Hg | exact Hbin].
  - assert (Grid_wf board_3x2) as Hwf by (unfold Grid_wf; simpl; lia).
    assert (binary_cells board_3x2) as Hbin0.
    { apply binary_cells_Forall; simpl; [lia|].
      repeat (constructor; [lia|]). constructor. }
    destruct (Happ board_3x2 Hwf Hbin0) as (g' & Hg' & _ & Hbin & _).
    exists g'. split; [exact Hg' | exact Hbin].
Defined.

(** ** Determinism of construction and of runs *)

Lemma main_loop_generations {E} (frames : nat) (g : Grid E) :
  Grid_wf g → main_loop frames (mkGame g) = Some (generations frames g).
Proof.
  revert g. induction frames as [|frames IH]; intros g Hwf; [done|].
  cbn [main_loop generations]. unfold play_round, play; cbn [m_grid].
  rewrite applyTo_sync_step by done. cbn [mbind option_bind].
  rewrite IH by (by apply sync_step_wf). done.
Qed.

(** The loop of the constructor overwrites the block cell by cell: from
    index [k] on, the cells receive the successive draws, whatever the block
    held. *)
Lemma Grid_ctor_loop_closed `{RandomEngine E} (n : nat) :
  ∀ (k : Z) (dist : Z * Z) (block : list Z) (e : E),
    0 <= k → k + Z.of_nat n = Z.of_nat (length block) →
    Grid_ctor_loop (seqZ k (Z.of_nat n)) dist block e
    = Some (take (Z.to_nat k) block ++ (fill_contents n dist e).1,
            (fill_contents n dist e).2).
Proof.
  induction n as [|n IH]; intros k dist block e Hk Hlen.
  - simpl. rewrite app_nil_r, take_ge by lia. done.
  - rewrite seqZ_cons by lia.
    replace (Z.pred (Z.of_nat (S n))) with (Z.of_nat n) by lia.
    cbn [Grid_ctor_loop fill_contents].
    destruct (uniform_int dist e) as [v e'].
    rewrite array_set_Some by lia. cbn [mbind option_bind].
    rewrite IH by (rewrite ?length_insert; lia).
    destruct (fill_contents n dist e') as [vs e'']. cbn [fst snd].
    do 2 f_equal.
    replace (Z.to_nat (Z.succ k)) with (S (Z.to_nat k)) by lia.
    rewrite (take_S_r _ _ v) by (apply list_lookup_insert_eq; lia).
    rewrite take_insert_ge by lia. by rewrite <- app_assoc.
Qed.

Lemma Grid_ctor_in_eq `{RandomEngine E} (env : Environment) (width height : Z) :
  Environment_ok env →
  Grid_ctor_in env width height = @Grid_ctor E _ width height.
Proof.
  intros Henv. unfold Grid_ctor_in, Grid_ctor.
  destruct (Z.leb_spec 0 (width * height)); [|done].
  destruct (width * height <=? INT_MAX); [|done]. cbn [andb].
  replace (seqZ 0 (width * height))
    with (seqZ 0 (Z.of_nat (Z.to_nat (width * height))))
    by (f_equal; lia).
  rewrite Grid_ctor_loop_closed by (rewrite ?Henv; lia).
  cbn [mbind option_bind]. rewrite take_0.
  by destruct (fill_contents _ _ _).
Qed.

(** From a state of the generator, at most one draw is rejected by the
    distribution (0, 1): the two unrollings of the rejection loop in
    [uniform_int_libstdcxx] are all the library's loop ever runs. *)
Lemma minstd_rejects_at_most_once (x : Z) :
  minstd_min <= x <= minstd_max →
  let past := 2 * ((minstd_max - minstd_min) / 2) in
  let x1 := minstd_next x in
  let x2 := minstd_next x1 in
  minstd_min <= x1 <= minstd_max ∧
  (0 <= x1 - minstd_min < past ∨ 0 <= x2 - minstd_min < past).
Proof.
  unfold minstd_min, minstd_max, minstd_next. intros Hx. cbn zeta.
  pose proof (Z.mod_pos_bound (16807 * x) 2147483647 ltac:(lia)) as Hb.
  assert ((16807 * x) mod 2147483647 ≠ 0) as Hnz.
  { intros Hz. apply Z.mod_divide in Hz; [|lia].
    apply Z.gauss in Hz; [|by vm_compute].
    apply Z.divide_pos_le in Hz; lia. }
  split; [lia|].
  change ((2147483646 - 1) / 2) with 1073741822.
  set (x1 := (16807 * x) mod 2147483647) in *.
  destruct (decide (x1 - 1 < 2 * 1073741822)) as [Hlt|Hge]; [left; lia|].
  right.
  assert (x1 = 2147483645 ∨ x1 = 2147483646) as [->| ->] by lia;
    vm_compute; split; congruence.
Qed.

(** C10. For positive dimensions (whose product fits an [int]) there is one
    grid that the constructor yields in every environment, whatever the
    arguments of [main] and whatever the freshly allocated block holds: its
    i-th cell is the i-th draw from the default-constructed engine.  The
    boards of a run of any length, in every environment, are the successive
    generations of that grid; so are the 1000 boards of [main]. *)
Theorem construction_deterministic `{RandomEngine E} (width height : Z) :
  0 < width → 0 < height → width * height <= INT_MAX →
  ∃ g : Grid E,
    (∀ env, Environment_ok env → Grid_ctor_in env width height = Some g) ∧
    Grid_ctor width height = Some g ∧
    (∀ i, 0 <= i < width * height →
       array_get (m_contents g) i
       = Some (uniform_int (0, 1)
                 (engine_after (0, 1) (Z.to_nat i) default_engine)).1) ∧
    m_engine g
    = engine_after (0, 1) (Z.to_nat (width * height)) default_engine ∧
    (∀ env frames, Environment_ok env →
       run_in env width height frames = Some (generations frames g)) ∧
    (∀ frames, run width height frames = Some (generations frames g)) ∧
    (width = 50 → height = 50 →
     ∀ env, Environment_ok env → main env = Some (generations 1000 g)).
Proof.
  intros Hw Hh Hmax.
  pose proof (Grid_ctor_Some width height ltac:(lia)) as Hctor.
  set (g := mkGrid _ _ _ _ _ _) in Hctor.
  assert (Grid_wf g) as Hwf
    by (unfold Grid_wf, g; cbn; rewrite fill_contents_length; lia).
  assert (∀ env frames, Environment_ok env →
            run_in env width height frames = Some (generations frames g))
    as Hrun.
  { intros env frames Henv. unfold run_in, Game_ctor_in.
    rewrite Grid_ctor_in_eq, Hctor by done. cbn [mbind option_bind].
    by apply main_loop_generations. }
  exists g.
  split; [intros env Henv; by rewrite Grid_ctor_in_eq|].
  split; [exact Hctor|].
  split; [|split; [|split; [|split]]].
  - intros i Hi. unfold g; cbn [m_contents].
    assert (Z.of_nat (length (fill_contents (Z.to_nat (width * height))
                                (0, 1) default_engine).1) = width * height)
      as Hlen by (rewrite fill_contents_length; lia).
    rewrite array_get_Some by lia.
    rewrite fill_contents_lookup by lia. done.
  - apply fill_contents_engine.
  - exact Hrun.
  - intros frames. unfold run, Game_ctor. rewrite Hctor.
    cbn [mbind option_bind]. by apply main_loop_generations.
  - intros -> -> env Henv. unfold main. by apply Hrun.
Qed.

Lemma construction_deterministic_witness :
  ∃ g : Grid Z,
    Grid_ctor_in env_sevens 3 2 = Some g ∧
    Grid_ctor_in env_counting 3 2 = Some g ∧
    m_contents g = [0; 0; 1; 0; 1; 0].
Proof.
  destruct (@construction_deterministic Z minstd_rand0 3 2)
    as (g & Hin & Hctor & _); [lia | lia | unfold INT_MAX; lia |].
  exists g.
  split; [apply Hin; intros n Hn; simpl; rewrite length_replicate; lia|].
  split; [apply Hin; intros n Hn; simpl; rewrite length_seqZ; lia|].
  vm_compute in Hctor. injection Hctor as <-. reflexivity.
Defined.

(** ** The dead board *)

Section dead.
Context {E : Type}.
Implicit Types (g : Grid E) (c : Z * Z).

Lemma all_dead_status g c : all_dead g → status_at g c = 0.
Proof.
  intros Hdead. unfold status_at.
  destruct (m_contents g !! Z.to_nat (c.2 + c.1 * m_height g)) as [v|] eqn:Hv;
    [|done].
  simpl. by apply (Forall_lookup_1 _ _ _ _ Hdead Hv).
Qed.

Lemma all_dead_living g c : all_dead g → living g c = false.
Proof.
  intros Hdead. unfold living. rewrite all_dead_status by done.
  apply andb_false_r.
Qed.

Lemma all_dead_count g c : all_dead g → living_neighbor_count g c = 0.
Proof.
  intros Hdead. unfold living_neighbor_count.
  induction eight_connected as [|o l IH]; [done|].
  rewrite fmap_cons, sum_Z_cons, IH, all_dead_living by done. done.
Qed.

Lemma all_dead_next_generation g :
  Grid_wf g → all_dead g → next_generation g = m_contents g.
Proof.
  intros (Hw & Hh & Hmax & Hlen) Hdead. apply list_eq. intros j.
  unfold next_generation. rewrite list_lookup_fmap.
  destruct (decide (j < length (m_contents g))%nat) as [Hj|Hj].
  - rewrite lookup_seqZ_lt by lia. simpl.
    rewrite all_dead_count, all_dead_living by done. simpl.
    destruct (lookup_lt_is_Some_2 (m_contents g) j Hj) as [v Hv].
    rewrite Hv. f_equal. symmetry.
    by apply (Forall_lookup_1 _ _ _ _ Hdead Hv).
  - rewrite lookup_seqZ_ge by lia. simpl. symmetry.
    apply lookup_ge_None. lia.
Qed.

End dead.

(** C8. On a well-formed grid whose cells are all dead, [applyTo] succeeds
    and leaves the grid as it is: every cell is still dead. *)
Theorem all_dead_fixed_point {E} (g : Grid E) :
  Grid_wf g → all_dead g →
  ∃ g', applyTo g = Some g' ∧ g' = g ∧ all_dead g' ∧
        ∀ c, valid_coord g c → value_at g' c = Some 0.
Proof.
  intros Hwf Hdead. exists g.
  split.
  - rewrite applyTo_sync_step by done. unfold sync_step.
    rewrite all_dead_next_generation by done. by rewrite set_contents_id.
  - split; [done|]. split; [done|].
    intros c Hc. rewrite value_at_valid by done.
    by rewrite all_dead_status.
Qed.

Lemma all_dead_fixed_point_witness :
  applyTo board_1x1 = Some board_1x1.
Proof.
  destruct (all_dead_fixed_point board_1x1) as (g' & Happ & -> & _).
  - unfold Grid_wf; simpl; lia.
  - repeat constructor.
  - exact Happ.
Defined.

(** ** The blinker *)

Section live.
Context {E : Type}.
Implicit Types (g : Grid E) (c : Z * Z).

Lemma elem_of_live_cells g c :
  Grid_wf g → c ∈ live_cells g ↔ living g c = true.
Proof.
  intros Hwf. pose proof Hwf as (Hw & Hh & Hmax & Hlen).
  unfold live_cells. rewrite list_elem_of_fmap. split.
  - intros (i & -> & Hi).
    apply list_elem_of_In, filter_In in Hi as [Hi Hf].
    apply list_elem_of_In, elem_of_seqZ in Hi.
    rewrite array_get_Some in Hf by lia.
    unfold living. rewrite <- within_in_board.
    rewrite (proj2 (within_valid g (to_2d g i)))
      by (apply to_2d_valid; lia).
    rewrite status_at_index by lia. exact Hf.
  - intros Hliving. unfold living in Hliving.
    apply andb_true_iff in Hliving as [Hin Halive].
    rewrite <- within_in_board in Hin. apply within_valid in Hin.
    pose proof (to_1d_range g c Hin) as Hr.
    exists (to_1d g c). split.
    + symmetry. apply to_2d_to_1d; apply Hin.
    + apply list_elem_of_In, filter_In. split.
      * apply list_elem_of_In, elem_of_seqZ. lia.
      * rewrite array_get_Some by lia. exact Halive.
Qed.

End live.

Section patterns.
Context {E E' : Type}.
Implicit Types (g : Grid E) (r : Grid E') (c : Z * Z).

Lemma living_of_live_cells g r c :
  Grid_wf g → Grid_wf r → live_cells g = live_cells r →
  living g c = living r c.
Proof.
  intros Hg Hr Heq. apply Bool.eq_true_iff_eq.
  rewrite <- !elem_of_live_cells by done. by rewrite Heq.
Qed.

Lemma next_generation_ext g r :
  m_width g = m_width r → m_height g = m_height r →
  (∀ c, living g c = living r c) →
  next_generation g = next_generation r.
Proof.
  intros Hw Hh Hliving.
  assert (∀ c, living_neighbor_count g c = living_neighbor_count r c)
    as Hcount.
  { intros c. unfold living_neighbor_count. f_equal.
    apply list_fmap_ext. intros k o _. simpl. by rewrite Hliving. }
  unfold next_generation. rewrite Hw, Hh.
  apply list_fmap_ext. intros j i _. simpl.
  by rewrite Hliving, Hcount.
Qed.

Lemma live_cells_ext g r :
  m_contents g = m_contents r → m_max g = m_max r →
  m_height g = m_height r → live_cells g = live_cells r.
Proof.
  intros Hc Hm Hh. unfold live_cells, to_2d. by rewrite Hc, Hm, Hh.
Qed.

Lemma sync_step_live_cells g r :
  Grid_wf g → Grid_wf r →
  m_width g = m_width r → m_height g = m_height r →
  live_cells g = live_cells r →
  live_cells (sync_step g) = live_cells (sync_step r).
Proof.
  intros Hg Hr Hw Hh Heq. apply live_cells_ext; simpl.
  - apply next_generation_ext; [done..|].
    intros c. by apply living_of_live_cells.
  - destruct Hg as (_ & _ & -> & _), Hr as (_ & _ & -> & _).
    by rewrite Hw, Hh.
  - done.
Qed.

End patterns.

Lemma blinker_a_wf : Grid_wf blinker_a.
Proof. unfold Grid_wf; simpl; lia. Qed.

Lemma blinker_b_wf : Grid_wf blinker_b.
Proof. unfold Grid_wf; simpl; lia. Qed.

Lemma blinker_boards :
  applyTo blinker_a = Some blinker_b ∧ applyTo blinker_b = Some blinker_a.
Proof. split; vm_compute; reflexivity. Qed.

(** C9. On a 5×5 grid whose live cells are exactly (2,1), (2,2), (2,3), one
    [applyTo] pass leaves exactly (1,2), (2,2), (3,2) alive, and a second
    pass leaves exactly (2,1), (2,2), (2,3) alive again. *)
Theorem blinker_period_two {E} (g : Grid E) :
  Grid_wf g → m_width g = 5 → m_height g = 5 →
  live_cells g = [(2, 1); (2, 2); (2, 3)] →
  ∃ g1 g2,
    applyTo g = Some g1 ∧ live_cells g1 = [(1, 2); (2, 2); (3, 2)] ∧
    applyTo g1 = Some g2 ∧ live_cells g2 = [(2, 1); (2, 2); (2, 3)].
Proof.
  intros Hwf Hw Hh Hlive.
  pose proof (sync_step_wf g Hwf) as Hwf1.
  assert (live_cells (sync_step g) = [(1, 2); (2, 2); (3, 2)]) as Hlive1.
  { rewrite (sync_step_live_cells g blinker_a);
      [by vm_compute | done | apply blinker_a_wf | done..]. }
  exists (sync_step g), (sync_step (sync_step g)).
  split; [by apply applyTo_sync_step|]. split; [done|].
  split; [by apply applyTo_sync_step|].
  rewrite (sync_step_live_cells (sync_step g) blinker_b);
    [by vm_compute | done | apply blinker_b_wf | done..].
Qed.

Lemma blinker_period_two_witness :
  ∃ g1 g2,
    applyTo blinker_a = Some g1 ∧ live_cells g1 = [(1, 2); (2, 2); (3, 2)] ∧
    applyTo g1 = Some g2 ∧ live_cells g2 = [(2, 1); (2, 2); (2, 3)].
Proof.
  apply (blinker_period_two blinker_a).
  - unfold Grid_wf; simpl; lia.
  - reflexivity.
  - reflexivity.
  - reflexivity.
Defined.

(** * Further properties of the code *)

(** ** Writing and reading back *)

Section writes.
Context {E : Type}.
Implicit Types (g : Grid E) (c : Z * Z) (b : bool).

Lemma write_inv g c b g' :
  write g c b = Some g' →
  0 <= to_1d g c < Z.of_nat (length (m_contents g)) ∧
  g' = set_contents g
         (<[Z.to_nat (to_1d g c) := if b then 1 else 0]> (m_contents g)).
Proof.
  unfold write, activate, deactivate. intros Hw.
  destruct b; apply bind_Some in Hw as (a & Hset & [= <-]);
    apply array_set_inv in Hset as [Hr ->]; done.
Qed.

Lemma to_1d_inj g c c' :
  valid_coord g c → valid_coord g c' → to_1d g c = to_1d g c' → c = c'.
Proof.
  intros [Hx Hy] [Hx' Hy'] Heq.
  rewrite <- (to_2d_to_1d g c), <- (to_2d_to_1d g c') by lia.
  by rewrite Heq.
Qed.

Lemma write_read g c b g' :
  Grid_wf g → valid_coord g c → write g c b = Some g' →
  Grid_wf g' ∧
  value_at g' c = Some (if b then 1 else 0) ∧
  (∀ c', valid_coord g c' → c' ≠ c → value_at g' c' = value_at g c').
Proof.
  intros Hwf Hc Hw. apply write_inv in Hw as [Hr ->].
  pose proof Hwf as (Hwd & Hh & Hmax & Hlen).
  split; [apply set_contents_wf; [done|by rewrite length_insert]|].
  unfold value_at. cbn [m_contents set_contents].
  change (to_1d (set_contents g _)) with (to_1d g).
  split.
  - unfold array_get. destruct (Z.leb_spec 0 (to_1d g c)); [|lia].
    apply list_lookup_insert_eq. lia.
  - intros c' Hc' Hne. unfold array_get.
    destruct (Z.leb_spec 0 (to_1d g c')); [|done].
    apply list_lookup_insert_ne. intros Heq.
    apply Hne. apply (to_1d_inj g); [done..|]. lia.
Qed.

End writes.

(** X1. On a well-formed grid and a valid coordinate, [activate] makes
    [value_at] of that coordinate 1 and [deactivate] makes it 0; the value at
    every other valid coordinate is what it was, and the grid stays well
    formed. *)
Theorem write_then_read {E} (g : Grid E) (c : Z * Z) :
  Grid_wf g → valid_coord g c →
  (∀ g', activate g c = Some g' →
     Grid_wf g' ∧ value_at g' c = Some 1 ∧
     ∀ c', valid_coord g c' → c' ≠ c → value_at g' c' = value_at g c') ∧
  (∀ g', deactivate g c = Some g' →
     Grid_wf g' ∧ value_at g' c = Some 0 ∧
     ∀ c', valid_coord g c' → c' ≠ c → value_at g' c' = value_at g c').
Proof.
  intros Hwf Hc. split; intros g' Hw.
  - exact (write_read g c true g' Hwf Hc Hw).
  - exact (write_read g c false g' Hwf Hc Hw).
Qed.

Lemma write_then_read_witness :
  ∃ g', activate board_3x2 (1, 0) = Some g' ∧
        value_at g' (1, 0) = Some 1 ∧
        value_at g' (2, 1) = value_at board_3x2 (2, 1).
Proof.
  assert (Grid_wf board_3x2) as Hwf by (unfold Grid_wf; simpl; lia).
  assert (valid_coord board_3x2 (1, 0)) as Hc
    by (unfold valid_coord; simpl; lia).
  destruct (activate board_3x2 (1, 0)) as [g'|] eqn:Hact; [|discriminate Hact].
  destruct (write_then_read board_3x2 (1, 0) Hwf Hc) as [Hon _].
  destruct (Hon g' Hact) as (_ & Hread & Hframe).
  exists g'. split; [reflexivity|]. split; [exact Hread|].
  apply Hframe; [unfold valid_coord; simpl; lia | discriminate].
Defined.

(** ** A write seen through [neighborhoods] *)

Section write_seen.
Context {E : Type}.
Implicit Types (g : Grid E) (c : Z * Z) (b : bool).

Lemma write_seen_by_neighborhoods g c b g' :
  Grid_wf g → valid_coord g c → write g c b = Some g' →
  ∃ hoods,
    neighborhoods g' = Some hoods ∧
    (∃ hood, hoods !! Z.to_nat (to_1d g c) = Some hood ∧
             cell_location hood = c ∧ cell_status hood = b) ∧
    (∀ hood cell, hood ∈ hoods → cell ∈ m_neighbors hood →
                  coord cell = c → is_alive cell = b).
Proof.
  intros Hwf Hc Hw.
  destruct (write_read g c b g' Hwf Hc Hw) as (Hwf' & Hread & _).
  pose proof (write_inv g c b g' Hw) as [_ Hg'].
  assert (m_height g' = m_height g ∧ m_width g' = m_width g ∧
          m_max g' = m_max g) as (Hh' & Hw' & Hm') by (by subst g').
  assert (valid_coord g' c) as Hc'
    by (unfold valid_coord; rewrite Hh', Hw'; exact Hc).
  assert (status_at g' c = if b then 1 else 0) as Hstatus.
  { rewrite value_at_valid in Hread by done. by injection Hread. }
  assert (to_1d g' c = to_1d g c) as H1d by (unfold to_1d; by rewrite Hh').
  pose proof Hwf' as (Hwd & Hh & Hmax & Hlen).
  pose proof (to_1d_range g' c Hc') as Hr.
  exists (hood_of g' <$> seqZ 0 (m_max g')).
  split; [by apply neighborhoods_closed|]. split.
  - exists (hood_of g' (to_1d g' c)). rewrite <- H1d.
    split; [apply lookup_hoods; lia|].
    unfold cell_location, cell_status, is_alive, hood_of; simpl.
    rewrite to_2d_to_1d by apply Hc'. split; [done|].
    rewrite Hstatus. by destruct b.
  - intros hood cell Hhood Hcell Hcoord.
    apply list_elem_of_fmap in Hhood as (i & -> & _). simpl in Hcell.
    apply elem_of_neighbor_cells in Hcell as (o & _ & _ & ->).
    simpl in Hcoord. unfold is_alive; simpl.
    rewrite Hcoord, Hstatus. by destruct b.
Qed.

End write_seen.

(** X2. A call of [neighborhoods] right after [activate] (or [deactivate])
    on a valid coordinate shows the new status: the neighbourhood centred on
    that coordinate reports it alive (dead), and so does every neighbour
    entry for that coordinate in the other neighbourhoods. *)
Theorem neighborhoods_after_write {E} (g : Grid E) (c : Z * Z) :
  Grid_wf g → valid_coord g c →
  (∀ g', activate g c = Some g' →
     ∃ hoods, neighborhoods g' = Some hoods ∧
       (∃ hood, hoods !! Z.to_nat (to_1d g c) = Some hood ∧
                cell_location hood = c ∧ cell_status hood = true) ∧
       (∀ hood cell, hood ∈ hoods → cell ∈ m_neighbors hood →
                     coord cell = c → is_alive cell = true)) ∧
  (∀ g', deactivate g c = Some g' →
     ∃ hoods, neighborhoods g' = Some hoods ∧
       (∃ hood, hoods !! Z.to_nat (to_1d g c) = Some hood ∧
                cell_location hood = c ∧ cell_status hood = false) ∧
       (∀ hood cell, hood ∈ hoods → cell ∈ m_neighbors hood →
                     coord cell = c → is_alive cell = false)).
Proof.
  intros Hwf Hc. split; intros g' Hw.
  - exact (write_seen_by_neighborhoods g c true g' Hwf Hc Hw).
  - exact (write_seen_by_neighborhoods g c false g' Hwf Hc Hw).
Qed.

Lemma neighborhoods_after_write_witness :
  ∃ g' hoods hood,
    activate board_3x2 (1, 0) = Some g' ∧ neighborhoods g' = Some hoods ∧
    hoods !! 2%nat = Some hood ∧ cell_status hood = true.
Proof.
  assert (Grid_wf board_3x2) as Hwf by (unfold Grid_wf; simpl; lia).
  assert (valid_coord board_3x2 (1, 0)) as Hc
    by (unfold valid_coord; simpl; lia).
  destruct (activate board_3x2 (1, 0)) as [g'|] eqn:Hact; [|discriminate Hact].
  destruct (neighborhoods_after_write board_3x2 (1, 0) Hwf Hc) as [Hon _].
  destruct (Hon g' Hact) as (hoods & Hhoods & (hood & Hlook & _ & Hst) & _).
  exists g', hoods, hood. split; [reflexivity|].
  split; [exact Hhoods|]. split; [exact Hlook | exact Hst].
Defined.

(** ** Sequences of writes *)



(** ** The range of the neighbour count *)

Lemma count_alive_neighbors_bounds (n : Neighborhood) :
  0 <= count_alive_neighbors n <= Z.of_nat (length (m_neighbors n)).
Proof.
  unfold count_alive_neighbors. rewrite count_alive_fold.
  induction (m_neighbors n) as [|cell cells IH]; [simpl; lia|].
  rewrite fmap_cons, sum_Z_cons. cbn [length].
  destruct (is_alive cell); lia.
Qed.

Lemma length_neighbor_cells_le {E} (g : Grid E) c offsets :
  (length (neighbor_cells g c offsets) <= length offsets)%nat.
Proof.
  unfold neighbor_cells. rewrite length_fmap.
  etransitivity; [apply length_filter|]. by rewrite length_fmap.
Qed.

(** X4. For any neighbourhood the count of living neighbours lies between 0
    and the number of neighbours; for the neighbourhoods that
    [neighborhoods] returns on a well-formed grid there are at most 8 of
    them, so [applyTo] calls [cell_lives] with a count in 0..8 only. *)
Theorem count_alive_neighbors_range {E} (g : Grid E) :
  (∀ n : Neighborhood,
     0 <= count_alive_neighbors n <= Z.of_nat (length (m_neighbors n))) ∧
  (Grid_wf g →
   ∃ hoods, neighborhoods g = Some hoods ∧
     ∀ hood, hood ∈ hoods →
       (length (m_neighbors hood) <= 8)%nat ∧
       0 <= count_alive_neighbors hood <= 8).
Proof.
  split; [apply count_alive_neighbors_bounds|].
  intros Hwf. exists (hood_of g <$> seqZ 0 (m_max g)).
  split; [by apply neighborhoods_closed|].
  intros hood (i & -> & _)%list_elem_of_fmap.
  pose proof (count_alive_neighbors_bounds (hood_of g i)) as Hb.
  pose proof (length_neighbor_cells_le g (to_2d g i) m_neighbor_offsets) as Hl.
  simpl in *. lia.
Qed.

Lemma count_alive_neighbors_range_witness :
  ∃ hoods, neighborhoods blinker_a = Some hoods ∧
    ∀ hood, hood ∈ hoods → 0 <= count_alive_neighbors hood <= 8.
Proof.
  destruct (proj2 (count_alive_neighbors_range blinker_a))
    as (hoods & Hhoods & Hall).
  - unfold Grid_wf; simpl; lia.
  - exists hoods. split; [exact Hhoods|].
    intros hood Hin. exact (proj2 (Hall hood Hin)).
Defined.

(** ** How many neighbours a cell has, on any board *)

(** X5. On every well-formed grid, also one of width or height 1, the cell
    of index [idx] has [reach x width * reach y height - 1] neighbours, where
    [(x, y)] is its coordinate and [reach] counts which of the positions
    before, at and after it exist on that axis. *)
Theorem neighbor_count_formula {E} (g : Grid E) (idx : Z) :
  Grid_wf g → 0 <= idx < m_max g →
  ∃ cells,
    neighbors g idx = Some cells ∧
    Z.of_nat (length cells)
    = reach (to_2d g idx).1 (m_width g) * reach (to_2d g idx).2 (m_height g) - 1.
Proof.
  intros Hwf Hidx. pose proof Hwf as (Hw & Hh & Hmax & Hlen).
  exists (neighbor_cells g (to_2d g idx) m_neighbor_offsets).
  split; [by apply neighbors_closed|].
  pose proof (to_2d_valid g idx Hh ltac:(lia)) as [Hx Hy].
  rewrite length_neighbor_cells.
  destruct (to_2d g idx) as [x y]. simpl in Hx, Hy.
  unfold reach, m_neighbor_offsets, within, shift. simpl.
  destruct (Z.ltb_spec 0 x), (Z.ltb_spec x (m_width g - 1)),
           (Z.ltb_spec 0 y), (Z.ltb_spec y (m_height g - 1));
    decide_ltb; reflexivity.
Qed.

Lemma neighbor_count_formula_witness :
  ∃ cells, neighbors board_1x1 0 = Some cells ∧ Z.of_nat (length cells) = 0.
Proof.
  destruct (neighbor_count_formula board_1x1 0) as (cells & Hcells & Hlen).
  - unfold Grid_wf; simpl; lia.
  - simpl; lia.
  - exists cells. split; [exact Hcells | exact Hlen].
Defined.

(** ** The neighbour relation *)

Lemma to_2d_inj {E} (g : Grid E) (i j : Z) :
  0 < m_height g → 0 <= i → 0 <= j → to_2d g i = to_2d g j → i = j.
Proof.
  intros Hh Hi Hj Heq.
  rewrite <- (to_1d_to_2d g i), <- (to_1d_to_2d g j) by done.
  by rewrite Heq.
Qed.

Lemma is_neighbor_offset {E} (g : Grid E) (i j : Z) :
  Grid_wf g → 0 <= j < m_max g →
  is_neighbor g i j ↔
  ∃ o, o ∈ m_neighbor_offsets ∧ to_2d g j = shift (to_2d g i) o.
Proof.
  intros Hwf Hj. pose proof Hwf as (Hw & Hh & Hmax & Hlen).
  unfold is_neighbor. rewrite neighbors_closed by done. split.
  - intros (cells & cell & [= <-] & Hcell & Hcoord).
    apply elem_of_neighbor_cells in Hcell as (o & Ho & _ & ->).
    exists o. split; [done|]. by rewrite <- Hcoord.
  - intros (o & Ho & Heq).
    exists (neighbor_cells g (to_2d g i) m_neighbor_offsets),
           (mkCell (status_at g (to_2d g j)) (to_2d g j)).
    split; [done|]. split; [|done].
    apply elem_of_neighbor_cells. exists o. rewrite <- Heq.
    split; [done|]. split; [|done].
    apply within_valid, to_2d_valid; lia.
Qed.

Lemma is_neighbor_distance {E} (g : Grid E) (i j : Z) :
  Grid_wf g → 0 <= i < m_max g → 0 <= j < m_max g →
  is_neighbor g i j ↔
  i ≠ j ∧
  -1 <= (to_2d g j).1 - (to_2d g i).1 <= 1 ∧
  -1 <= (to_2d g j).2 - (to_2d g i).2 <= 1.
Proof.
  intros Hwf Hi Hj. pose proof Hwf as (Hw & Hh & Hmax & Hlen).
  rewrite is_neighbor_offset by done. split.
  - intros ([dx dy] & Ho & Heq).
    apply neighbor_offsets_spec in Ho as (Hdx & Hdy & Hne).
    rewrite Heq. unfold shift; simpl. split; [|lia].
    intros ->. apply Hne.
    unfold shift in Heq. destruct (to_2d g j) as [x y]; simpl in Heq.
    injection Heq as Hx Hy. lia.
  - intros (Hne & Hdx & Hdy).
    exists ((to_2d g j).1 - (to_2d g i).1, (to_2d g j).2 - (to_2d g i).2).
    split.
    + apply neighbor_offsets_spec. split; [done|]. split; [done|].
      intros [H1 H2]. apply Hne. apply (to_2d_inj g); [lia..|].
      destruct (to_2d g i), (to_2d g j); simpl in *. f_equal; lia.
    + unfold shift. destruct (to_2d g i), (to_2d g j); simpl. f_equal; lia.
Qed.

(** X6. On a well-formed grid, the cell of index [j] is collected as a
    neighbour of the cell of index [i] exactly when the two are distinct and
    their coordinates differ by at most 1 on each axis.  So the relation is
    symmetric, no cell is its own neighbour, and a neighbour's linear index
    is [i + dy + dx * height] for some [dx], [dy] in -1..1. *)
Theorem neighbor_relation {E} (g : Grid E) (i j : Z) :
  Grid_wf g → 0 <= i < m_max g → 0 <= j < m_max g →
  (is_neighbor g i j ↔
     i ≠ j ∧
     -1 <= (to_2d g j).1 - (to_2d g i).1 <= 1 ∧
     -1 <= (to_2d g j).2 - (to_2d g i).2 <= 1) ∧
  (is_neighbor g i j ↔ is_neighbor g j i) ∧
  ¬ is_neighbor g i i ∧
  (is_neighbor g i j →
     ∃ dx dy, -1 <= dx <= 1 ∧ -1 <= dy <= 1 ∧
              j = i + dy + dx * m_height g).
Proof.
  intros Hwf Hi Hj. pose proof Hwf as (Hw & Hh & Hmax & Hlen).
  split; [by apply is_neighbor_distance|].
  split; [rewrite !is_neighbor_distance by done; lia|].
  split; [rewrite is_neighbor_distance by done; intros [? _]; done|].
  intros (_ & Hdx & Hdy)%is_neighbor_distance; [|done..].
  exists ((to_2d g j).1 - (to_2d g i).1), ((to_2d g j).2 - (to_2d g i).2).
  split; [done|]. split; [done|].
  rewrite <- (to_1d_to_2d g i) at 1 by lia.
  rewrite <- (to_1d_to_2d g j) at 1 by lia.
  unfold to_1d. lia.
Qed.

Lemma neighbor_relation_witness :
  is_neighbor board_3x2 0 3 ↔ is_neighbor board_3x2 3 0.
Proof.
  refine (proj1 (proj2 (neighbor_relation board_3x2 0 3 _ _ _))).
  - unfold Grid_wf; simpl; lia.
  - simpl; lia.
  - simpl; lia.
Defined.

(** ** Under-population *)

Lemma sum_indicator_length {A} (P : A → bool) (l : list A) :
  sum_Z ((λ x, if P x then 1 else 0) <$> l)
  = Z.of_nat (length (filter (λ x, P x = true) l)).
Proof.
  induction l as [|x l IH]; [done|].
  rewrite fmap_cons, sum_Z_cons, filter_cons, IH.
  destruct (P x) eqn:HP.
  - rewrite decide_True by done. cbn [length]. lia.
  - rewrite decide_False by done. lia.
Qed.

Lemma eight_connected_NoDup : NoDup eight_connected.
Proof. apply (bool_decide_unpack _). by vm_compute. Qed.

Lemma eight_connected_nonzero : (0, 0) ∉ eight_connected.
Proof. apply (bool_decide_unpack _). by vm_compute. Qed.

Lemma filter_none {A} (f : A → bool) (l : list A) :
  (∀ x, x ∈ l → f x = false) → List.filter f l = [].
Proof.
  induction l as [|x l IH]; intros Hf; [done|]. simpl.
  rewrite (Hf x) by left. apply IH. intros y Hy. apply Hf. by right.
Qed.

Section underpopulation.
Context {E : Type}.
Implicit Types (g : Grid E) (c : Z * Z).

(** The living neighbours of a cell, and the cell itself when it lives, are
    distinct live cells of the board. *)
Lemma living_neighbor_count_le g c :
  Grid_wf g →
  living_neighbor_count g c + (if living g c then 1 else 0)
  <= Z.of_nat (length (live_cells g)).
Proof.
  intros Hwf. unfold living_neighbor_count.
  rewrite (sum_indicator_length (λ o, living g (shift c o))).
  set (os := filter (λ o, living g (shift c o) = true) eight_connected).
  assert (NoDup (shift c <$> os)) as Hnd.
  { apply NoDup_fmap_2_strong.
    - intros o1 o2 _ _. apply shift_inj.
    - apply NoDup_filter, eight_connected_NoDup. }
  assert (∀ n, n ∈ shift c <$> os → n ∈ live_cells g) as Hlive.
  { intros n (o & -> & Ho)%list_elem_of_fmap.
    apply list_elem_of_filter in Ho as [Ho _].
    by apply elem_of_live_cells. }
  assert (c ∉ shift c <$> os) as Hself.
  { intros (o & Ho & Hin)%list_elem_of_fmap.
    apply list_elem_of_filter in Hin as [_ Hin].
    assert (o = (0, 0)) as ->.
    { destruct o as [dx dy], c as [x y]. unfold shift in Ho; simpl in Ho.
      injection Ho as Hx Hy. f_equal; lia. }
    by apply eight_connected_nonzero. }
  rewrite <- (length_fmap (shift c) os).
  destruct (living g c) eqn:Hc.
  - assert (c :: (shift c <$> os) ⊆+ live_cells g) as Hsub.
    { apply NoDup_submseteq; [by apply NoDup_cons|].
      intros n [->|Hn]%elem_of_cons; [by apply elem_of_live_cells|auto]. }
    apply submseteq_length in Hsub. cbn [length] in Hsub. lia.
  - assert ((shift c <$> os) ⊆+ live_cells g) as Hsub
      by (by apply NoDup_submseteq).
    apply submseteq_length in Hsub. lia.
Qed.

Lemma living_neighbor_count_nonneg g c : 0 <= living_neighbor_count g c.
Proof.
  unfold living_neighbor_count.
  rewrite (sum_indicator_length (λ o, living g (shift c o))). lia.
Qed.

Lemma underpopulated_next_generation g :
  Grid_wf g → (length (live_cells g) < 3)%nat →
  next_generation g = replicate (length (m_contents g)) 0.
Proof.
  intros Hwf Hfew. pose proof Hwf as (Hw & Hh & Hmax & Hlen).
  apply list_eq. intros j. unfold next_generation.
  rewrite list_lookup_fmap.
  destruct (decide (j < length (m_contents g))%nat) as [Hj|Hj].
  - rewrite lookup_seqZ_lt, lookup_replicate_2 by lia. simpl. f_equal.
    set (c := ((0 + Z.of_nat j) / m_height g, (0 + Z.of_nat j) mod m_height g)).
    pose proof (living_neighbor_count_le g c Hwf) as Hle.
    pose proof (living_neighbor_count_nonneg g c) as Hge.
    unfold next_status.
    destruct (living g c);
      destruct (Z.ltb_spec (living_neighbor_count g c) 2); try done;
      destruct (Z.ltb_spec 3 (living_neighbor_count g c)); try done;
      try lia.
    destruct (Z.eqb_spec (living_neighbor_count g c) 3); [lia|done].
  - rewrite lookup_seqZ_ge by lia. simpl. symmetry.
    apply lookup_replicate_None. lia.
Qed.

Lemma cleared_wf g : Grid_wf g → Grid_wf (cleared g).
Proof.
  intros Hwf. apply set_contents_wf; [done|]. by rewrite length_replicate.
Qed.

Lemma cleared_all_dead g : all_dead (cleared g).
Proof. unfold all_dead, cleared; simpl. by apply Forall_replicate. Qed.

Lemma all_dead_live_cells g : all_dead g → live_cells g = [].
Proof.
  intros Hdead. unfold live_cells. rewrite filter_none; [done|].
  intros i _. unfold array_get. destruct (0 <=? i); [|done].
  destruct (m_contents g !! Z.to_nat i) as [v|] eqn:Hv; [|done].
  by rewrite (Forall_lookup_1 _ _ _ _ Hdead Hv).
Qed.

Lemma all_dead_cleared g : all_dead g → cleared g = g.
Proof.
  intros Hdead.
  transitivity (set_contents g (m_contents g)); [|apply set_contents_id].
  unfold cleared. f_equal.
  apply list_eq. intros j.
  destruct (m_contents g !! j) as [v|] eqn:Hv.
  - rewrite lookup_replicate_2 by (by eapply lookup_lt_Some).
    by rewrite (Forall_lookup_1 _ _ _ _ Hdead Hv).
  - apply lookup_replicate_None. by apply lookup_ge_None.
Qed.

Lemma underpopulated_main_loop g (frames : nat) :
  Grid_wf g → (length (live_cells g) < 3)%nat →
  main_loop (S frames) (mkGame g) = Some (g :: replicate frames (cleared g)).
Proof.
  intros Hwf Hfew.
  assert (∀ n, main_loop n (mkGame (cleared g))
               = Some (replicate n (cleared g))) as Hdead.
  { induction n as [|n IH]; [done|].
    cbn [main_loop]. unfold play_round, play; cbn [m_grid].
    rewrite applyTo_sync_step by (by apply cleared_wf).
    unfold sync_step.
    rewrite all_dead_next_generation
      by (apply cleared_wf || apply cleared_all_dead; done).
    rewrite set_contents_id. cbn [mbind option_bind].
    by rewrite IH. }
  cbn [main_loop]. unfold play_round, play; cbn [m_grid].
  rewrite applyTo_sync_step by done. unfold sync_step.
  rewrite underpopulated_next_generation by done.
  fold (cleared g). cbn [mbind option_bind]. by rewrite Hdead.
Qed.

End underpopulation.

(** X7. On a well-formed grid with fewer than three live cells, one
    [applyTo] pass leaves every cell dead: a live cell has at most one live
    neighbour, a dead cell at most two. *)
Theorem underpopulated_board_dies {E} (g : Grid E) :
  Grid_wf g → (length (live_cells g) < 3)%nat →
  ∃ g', applyTo g = Some g' ∧ g' = cleared g ∧
        all_dead g' ∧ live_cells g' = [].
Proof.
  intros Hwf Hfew. exists (cleared g).
  split.
  - rewrite applyTo_sync_step by done. unfold sync_step.
    by rewrite underpopulated_next_generation.
  - split; [done|]. split; [apply cleared_all_dead|].
    apply all_dead_live_cells, cleared_all_dead.
Qed.

Lemma underpopulated_board_dies_witness :
  ∃ g', applyTo board_2x2 = Some g' ∧ all_dead g'.
Proof.
  destruct (underpopulated_board_dies board_2x2) as (g' & Happ & _ & Hd & _).
  - unfold Grid_wf; simpl; lia.
  - vm_compute. lia.
  - exists g'. split; [exact Happ | exact Hd].
Defined.

(** X8. A run from a well-formed grid with fewer than three live cells
    shows that grid in its first frame and the empty board in every later
    frame: once all cells are dead, [play_round] keeps them dead. *)
Theorem underpopulated_run {E} (g : Grid E) (frames : nat) :
  Grid_wf g → (length (live_cells g) < 3)%nat →
  main_loop (S frames) (mkGame g) = Some (g :: replicate frames (cleared g)) ∧
  play_round (mkGame (cleared g)) = Some (mkGame (cleared g)) ∧
  (all_dead g → main_loop (S frames) (mkGame g) = Some (replicate (S frames) g)).
Proof.
  intros Hwf Hfew.
  pose proof (underpopulated_main_loop g frames Hwf Hfew) as Hrun.
  split; [exact Hrun|]. split.
  - unfold play_round, play; cbn [m_grid].
    rewrite applyTo_sync_step by (by apply cleared_wf). unfold sync_step.
    rewrite all_dead_next_generation
      by (apply cleared_wf || apply cleared_all_dead; done).
    by rewrite set_contents_id.
  - intros Hdead. rewrite Hrun. by rewrite all_dead_cleared.
Qed.

Lemma underpopulated_run_witness :
  main_loop 3 (mkGame board_2x2)
  = Some [board_2x2; cleared board_2x2; cleared board_2x2].
Proof.
  refine (proj1 (underpopulated_run board_2x2 2 _ _)).
  - unfold Grid_wf; simpl; lia.
  - vm_compute. lia.
Defined.

(** ** Only the pattern matters *)

(** X9. Two well-formed grids of the same dimensions whose live cells are
    the same, whatever non-zero values mark them, have the same cell
    contents after [applyTo]. *)
Theorem applyTo_depends_on_pattern {E E'} (g : Grid E) (r : Grid E') :
  Grid_wf g → Grid_wf r →
  m_width g = m_width r → m_height g = m_height r →
  live_cells g = live_cells r →
  ∃ g' r', applyTo g = Some g' ∧ applyTo r = Some r' ∧
           m_contents g' = m_contents r'.
Proof.
  intros Hg Hr Hw Hh Hlive.
  exists (sync_step g), (sync_step r).
  split; [by apply applyTo_sync_step|].
  split; [by apply applyTo_sync_step|].
  simpl. apply next_generation_ext; [done..|].
  intros c. by apply living_of_live_cells.
Qed.

Lemma applyTo_depends_on_pattern_witness :
  ∃ g' r',
    applyTo board_2x2 = Some g' ∧
    applyTo (board 1 2 2 [0; 7; 0; -3]) = Some r' ∧
    m_contents g' = m_contents r'.
Proof.
  apply (applyTo_depends_on_pattern board_2x2 (board 1 2 2 [0; 7; 0; -3])).
  - unfold Grid_wf; simpl; lia.
  - unfold Grid_wf; simpl; lia.
  - reflexivity.
  - reflexivity.
  - reflexivity.
Defined.

(** ** Absence of integer overflow *)

(** X10. On a grid delivered by the constructor for positive dimensions,
    every [int] that [to_2d], [neighbors], [to_1d] and [value_at] compute for
    a cell index of the board and one of the 8 offsets stays within the range
    of [int]: the cell count, both components of the centre and of the
    candidate, and for the centre and for a candidate that passes the bounds
    test the product [coord[0] * m_height] and the linear index. *)
Theorem constructed_grid_no_overflow `{RandomEngine E}
    (width height : Z) (g : Grid E) (idx : Z) (o : Z * Z) :
  0 < width → 0 < height → Grid_ctor width height = Some g →
  0 <= idx < m_max g → o ∈ m_neighbor_offsets →
  let this_coord := to_2d g idx in
  let neighbor_coord := (this_coord.1 + o.1, this_coord.2 + o.2) in
  fits_int (m_max g) ∧
  fits_int this_coord.1 ∧ fits_int this_coord.2 ∧
  fits_int (this_coord.1 * m_height g) ∧ fits_int (to_1d g this_coord) ∧
  fits_int neighbor_coord.1 ∧ fits_int neighbor_coord.2 ∧
  (within g neighbor_coord = true →
   fits_int (neighbor_coord.1 * m_height g) ∧
   fits_int (to_1d g neighbor_coord)).
Proof.
  intros Hw Hh Hctor Hidx Ho this_coord neighbor_coord.
  destruct (Grid_ctor_wf width height g Hw Hh Hctor) as (Hwf & Hfit & _ & _).
  pose proof Hwf as (Hwd & Hht & Hmax & Hlen).
  pose proof (to_2d_valid g idx Hht ltac:(lia)) as Hvalid.
  pose proof (to_1d_fits_int g this_coord Hwf Hfit Hvalid) as [Hp H1].
  pose proof (neighbor_coord_fits_int g idx o Hwf Hfit Hidx Ho) as [Hn1 Hn2].
  split; [unfold fits_int, Grid_fits, INT_MIN in *; lia|].
  destruct Hvalid as [Hx Hy].
  split; [unfold fits_int, Grid_fits, INT_MIN, INT_MAX in *;
          fold this_coord in Hx; nia|].
  split; [unfold fits_int, Grid_fits, INT_MIN, INT_MAX in *;
          fold this_coord in Hy; nia|].
  split; [done|]. split; [done|]. split; [done|]. split; [done|].
  intros Hin. apply within_valid in Hin.
  by apply to_1d_fits_int.
Qed.

Lemma constructed_grid_no_overflow_witness :
  ∃ g : Grid Z, Grid_ctor 3 2 = Some g ∧ fits_int (to_1d g (to_2d g 5)).
Proof.
  destruct (Grid_ctor 3 2) as [g|] eqn:Hg; [|discriminate Hg].
  exists g. split; [reflexivity|].
  assert (0 <= 5 < m_max g) as Hidx
    by (vm_compute in Hg; injection Hg as <-; simpl; lia).
  assert ((1, 1) ∈ m_neighbor_offsets) as Ho
    by (apply neighbor_offsets_spec; lia).
  exact (proj1 (proj2 (proj2 (proj2 (proj2
    (constructed_grid_no_overflow 3 2 g 5 (1, 1)
       ltac:(lia) ltac:(lia) Hg Hidx Ho)))))).
Defined.

(** ** Boards with a dimension that is not positive *)



Section degenerate.
Context {E : Type}.
Implicit Types (g : Grid E) (c : Z * Z).





End degenerate.



(** ** Printing a board *)

Section printing_loop.
Context {E : Type}.
Implicit Types (g : Grid E) (out : list ascii).

Lemma operator_shl_loop_cons g i indices out v :
  m_width g ≠ 0 → array_get (m_contents g) i = Some v →
  operator_shl_loop g (i :: indices) out
  = operator_shl_loop g indices
      ((if Z.rem i (m_width g) =? 0
        then (if 0 <? i then out ++ [" "%char] else out) ++ endl
        else out) ++ glyph v).
Proof.
  intros Hw Hv. cbn [operator_shl_loop].
  destruct (Z.eqb_spec (m_width g) 0); [done|].
  rewrite Hv. cbn [mbind option_bind]. unfold glyph.
  by destruct (v =? 0).
Qed.

Lemma operator_shl_loop_app g l1 l2 out :
  operator_shl_loop g (l1 ++ l2) out
  = operator_shl_loop g l1 out ≫= operator_shl_loop g l2.
Proof.
  revert out. induction l1 as [|i l1 IH]; intros out; [done|].
  cbn [app operator_shl_loop].
  destruct (m_width g =? 0); [done|].
  destruct (array_get (m_contents g) i) as [v|]; [|done].
  cbn [mbind option_bind]. apply IH.
Qed.

(** Indices that do not start a line only add their glyphs. *)
Lemma operator_shl_loop_inside g (n : nat) :
  ∀ (k : Z) out,
    0 < m_width g → 0 <= k →
    k + Z.of_nat n <= Z.of_nat (length (m_contents g)) →
    (∀ i, k <= i < k + Z.of_nat n → Z.rem i (m_width g) ≠ 0) →
    operator_shl_loop g (seqZ k (Z.of_nat n)) out
    = Some (out ++ concat ((λ i, glyph (default 0 (m_contents g !! Z.to_nat i)))
                           <$> seqZ k (Z.of_nat n))).
Proof.
  induction n as [|n IH]; intros k out Hw Hk Hlen Hrem.
  - simpl. by rewrite app_nil_r.
  - rewrite seqZ_cons by lia.
    replace (Z.pred (Z.of_nat (S n))) with (Z.of_nat n) by lia.
    rewrite (operator_shl_loop_cons g k _ out
               (default 0 (m_contents g !! Z.to_nat k)))
      by (lia || (apply array_get_Some; lia)).
    destruct (Z.eqb_spec (Z.rem k (m_width g)) 0) as [Hz|_];
      [exfalso; apply (Hrem k); [lia|done]|].
    rewrite IH; [|lia..|intros; apply Hrem; lia].
    rewrite fmap_cons. cbn [concat]. by rewrite <- app_assoc.
Qed.

Lemma rem_inside_line (r w i : Z) :
  0 < w → 0 <= r → r * w < i < r * w + w → Z.rem i w ≠ 0.
Proof.
  intros Hw Hr Hi Hz.
  pose proof (Z.quot_rem' i w) as Hq. rewrite Hz in Hq.
  assert (r < i ÷ w) by nia. assert (i ÷ w < r + 1) by nia. lia.
Qed.

(** One line: a blank closing the previous line if there is one, the line
    feed, the glyphs. *)
Lemma operator_shl_loop_line g (r : Z) out :
  0 < m_width g → 0 <= r →
  (r + 1) * m_width g <= Z.of_nat (length (m_contents g)) →
  operator_shl_loop g (seqZ (r * m_width g) (m_width g)) out
  = Some (out ++ (if 0 <? r then [" "%char] else []) ++ endl
          ++ concat ((λ i, glyph (default 0 (m_contents g !! Z.to_nat i)))
                     <$> seqZ (r * m_width g) (m_width g))).
Proof.
  intros Hw Hr Hlen.
  rewrite seqZ_cons by lia.
  rewrite (operator_shl_loop_cons g (r * m_width g) _ out
             (default 0 (m_contents g !! Z.to_nat (r * m_width g))))
    by (lia || (apply array_get_Some; nia)).
  rewrite Z.rem_mul by lia. cbn [Z.eqb].
  replace (Z.pred (m_width g))
    with (Z.of_nat (Z.to_nat (m_width g - 1))) by lia.
  rewrite operator_shl_loop_inside; [|lia|nia|nia|].
  - rewrite fmap_cons. cbn [concat]. f_equal.
    destruct (Z.ltb_spec 0 r), (Z.ltb_spec 0 (r * m_width g)); try nia;
      by rewrite <- ?app_assoc.
  - intros i Hi. apply (rem_inside_line r); lia.
Qed.

(** The first [R + 1] lines: everything but the blank that closes the last. *)
Lemma operator_shl_loop_lines g (R : nat) out :
  0 < m_width g →
  Z.of_nat (S R) * m_width g <= Z.of_nat (length (m_contents g)) →
  ∃ body,
    operator_shl_loop g (seqZ 0 (Z.of_nat (S R) * m_width g)) out
    = Some (out ++ body) ∧
    body ++ [" "%char] = concat (printed_line g <$> seqZ 0 (Z.of_nat (S R))).
Proof.
  intros Hw. induction R as [|R IH]; intros Hlen.
  - eexists. split.
    + replace (Z.of_nat 1 * m_width g) with (m_width g) by lia.
      rewrite <- (Z.mul_0_l (m_width g)) at 1.
      rewrite operator_shl_loop_line by lia. reflexivity.
    + change (seqZ 0 (Z.of_nat 1)) with [0].
      rewrite list_fmap_singleton. cbn [concat]. rewrite app_nil_r.
      unfold printed_line. change (0 <? 0) with false. cbn [app].
      by rewrite <- !app_assoc.
  - destruct IH as (body & Hloop & Hbody); [lia|].
    replace (Z.of_nat (S (S R)) * m_width g)
      with (Z.of_nat (S R) * m_width g + m_width g) by lia.
    rewrite seqZ_app by lia.
    rewrite operator_shl_loop_app, Hloop. cbn [mbind option_bind].
    rewrite Z.add_0_l, operator_shl_loop_line by lia.
    destruct (Z.ltb_spec 0 (Z.of_nat (S R))); [|lia].
    eexists. split; [by rewrite <- app_assoc|].
    rewrite (seqZ_S 0 (S R)), fmap_app, concat_app, <- Hbody.
    rewrite list_fmap_singleton. cbn [concat]. rewrite app_nil_r.
    unfold printed_line. rewrite Z.add_0_l.
    by rewrite <- !app_assoc.
Qed.

Lemma operator_shl_closed g out :
  Grid_wf g →
  operator_shl out g
  = Some (out ++ concat (printed_line g <$> seqZ 0 (m_height g))).
Proof.
  intros (Hw & Hh & Hmax & Hlen). unfold operator_shl.
  destruct (operator_shl_loop_lines g (Z.to_nat (m_height g - 1)) out Hw)
    as (body & Hloop & Hbody); [nia|].
  replace (Z.of_nat (S (Z.to_nat (m_height g - 1)))) with (m_height g)
    in Hloop, Hbody by lia.
  replace (m_max g) with (m_height g * m_width g) by lia.
  rewrite Hloop. cbn [mbind option_bind].
  by rewrite <- Hbody, <- app_assoc.
Qed.

Lemma length_glyphs g (l : list Z) :
  length (concat ((λ i, glyph (default 0 (m_contents g !! Z.to_nat i))) <$> l))
  = (2 * length l)%nat.
Proof.
  induction l as [|i l IH]; [done|].
  rewrite fmap_cons. cbn [concat]. rewrite length_app, IH.
  unfold glyph. destruct (_ =? 0); cbn [length]; lia.
Qed.

(** What the loop writes has as many stars as it met non-zero cells. *)
Lemma operator_shl_loop_stars g indices :
  ∀ out out',
    operator_shl_loop g indices out = Some out' →
    count_occ ascii_dec out' "*"%char
    = (count_occ ascii_dec out "*"%char
       + length (List.filter
                   (λ i, match array_get (m_contents g) i with
                         | Some v => negb (v =? 0)%Z
                         | None => false
                         end) indices))%nat.
Proof.
  induction indices as [|i indices IH]; intros out out' Hloop.
  - injection Hloop as <-. simpl. lia.
  - cbn [operator_shl_loop] in Hloop.
    destruct (m_width g =? 0); [discriminate|].
    cbn [List.filter].
    destruct (array_get (m_contents g) i) as [v|]; [|discriminate].
    cbn [mbind option_bind] in Hloop.
    apply IH in Hloop. rewrite Hloop. clear Hloop.
    assert (∀ o, count_occ ascii_dec
                   (if Z.rem i (m_width g) =? 0
                    then (if 0 <? i then o ++ [" "%char] else o) ++ endl
                    else o) "*"%char
                 = count_occ ascii_dec o "*"%char) as Hpre.
    { intros o. destruct (_ =? 0); [|done].
      destruct (0 <? i); rewrite !count_occ_app; simpl; lia. }
    destruct (v =? 0); rewrite count_occ_app, Hpre; simpl; lia.
Qed.

End printing_loop.

(** X12. Printing a well-formed grid appends [m_height] lines, each made of
    a line feed, the two-character glyphs of [m_width] consecutive cells in
    index order (line [r] starts at index [r * m_width]) and a blank: the
    cell of index [i] is shown on line [i / m_width].  Each line has
    [2 * m_width + 2] characters.  [show_board] puts 37 dashes before and a
    line feed after.  A board without cells prints as one blank. *)
Theorem operator_shl_layout {E} (g : Grid E) (out : list ascii) :
  Grid_wf g →
  operator_shl out g
  = Some (out ++ concat (printed_line g <$> seqZ 0 (m_height g))) ∧
  (∀ r, Z.of_nat (length (printed_line g r)) = 2 * m_width g + 2) ∧
  show_board (mkGame g) out
  = Some (out ++ replicate 37 "-"%char
          ++ concat (printed_line g <$> seqZ 0 (m_height g)) ++ endl) ∧
  (∀ g0 : Grid E, m_max g0 <= 0 →
     operator_shl out g0 = Some (out ++ [" "%char])).
Proof.
  intros Hwf. pose proof Hwf as (Hw & Hh & Hmax & Hlen).
  split; [by apply operator_shl_closed|]. split; [|split].
  - intros r. unfold printed_line.
    rewrite !length_app, length_glyphs, length_seqZ. cbn [length endl]. lia.
  - unfold show_board. cbn [m_grid].
    rewrite operator_shl_closed by done. cbn [mbind option_bind].
    by rewrite <- !app_assoc.
  - intros g0 Hmax0. unfold operator_shl. by rewrite seqZ_nil.
Qed.

Lemma operator_shl_layout_witness :
  operator_shl [] board_2x2
  = Some ["010"; " "; " "; " "; "*"; " ";
          "010"; " "; " "; " "; "*"; " "]%char.
Proof.
  rewrite (proj1 (operator_shl_layout board_2x2 []
                    ltac:(unfold Grid_wf; simpl; lia))).
  reflexivity.
Defined.

(** X13. On a well-formed square grid the picture follows the coordinates:
    line [r] shows, from left to right, the cells of coordinates [(r, 0)],
    [(r, 1)], ..., [(r, m_width - 1)]. *)
Theorem operator_shl_square {E} (g : Grid E) (out : list ascii) :
  Grid_wf g → m_width g = m_height g →
  operator_shl out g
  = Some (out ++ concat
            ((λ r, endl
                   ++ concat ((λ k, glyph (status_at g (r, k)))
                              <$> seqZ 0 (m_width g))
                   ++ [" "%char])
             <$> seqZ 0 (m_height g))).
Proof.
  intros Hwf Hsq. rewrite operator_shl_closed by done.
  do 3 f_equal. apply list_fmap_ext. intros j r _.
  unfold printed_line. do 3 f_equal.
  rewrite <- (Z.add_0_r (r * m_width g)) at 1.
  rewrite <- fmap_add_seqZ, <- list_fmap_compose.
  apply list_fmap_ext. intros j' k _. simpl.
  unfold status_at; simpl. rewrite Hsq. do 4 f_equal. lia.
Qed.

Lemma operator_shl_square_witness :
  operator_shl [] board_2x2
  = Some ["010"; " "; " "; " "; "*"; " ";
          "010"; " "; " "; " "; "*"; " "]%char.
Proof.
  rewrite (operator_shl_square board_2x2 []
             ltac:(unfold Grid_wf; simpl; lia) eq_refl).
  reflexivity.
Defined.

(** X14. Printing a well-formed grid succeeds and adds exactly as many
    stars to the stream as the grid has live cells. *)
Theorem operator_shl_stars {E} (g : Grid E) (out : list ascii) :
  Grid_wf g →
  ∃ out',
    operator_shl out g = Some out' ∧
    count_occ ascii_dec out' "*"%char
    = (count_occ ascii_dec out "*"%char + length (live_cells g))%nat.
Proof.
  intros Hwf. pose proof (operator_shl_closed g out Hwf) as Hprint.
  eexists. split; [exact Hprint|].
  unfold operator_shl in Hprint.
  destruct (operator_shl_loop g (seqZ 0 (m_max g)) out) as [out1|] eqn:Hloop;
    [|discriminate].
  cbn [mbind option_bind] in Hprint. injection Hprint as <-.
  apply operator_shl_loop_stars in Hloop.
  rewrite count_occ_app, Hloop. unfold live_cells. rewrite length_fmap.
  simpl. lia.
Qed.

Lemma operator_shl_stars_witness :
  ∃ out', operator_shl [] blinker_a = Some out' ∧
          count_occ ascii_dec out' "*"%char = 3%nat.
Proof.
  destruct (operator_shl_stars blinker_a [])
    as (out' & Hprint & Hcount); [unfold Grid_wf; simpl; lia|].
  exists out'. split; [exact Hprint | exact Hcount].
Defined.

(** ** The picture and the rule on boards that are not square *)

Lemma to_2d_of_coord {E} (g : Grid E) (x y : Z) :
  0 <= x → 0 <= y < m_height g → to_2d g (y + x * m_height g) = (x, y).
Proof. intros Hx Hy. apply (to_2d_to_1d g (x, y)); simpl; lia. Qed.

(** The [j]-th element of the [r]-th block of a concatenation of blocks of
    one length. *)
Lemma lookup_concat_blocks {A B} (f : B → list A) (n : nat) (l : list B)
    (r j : nat) :
  (∀ x, length (f x) = n) → (j < n)%nat →
  concat (f <$> l) !! (r * n + j)%nat = l !! r ≫= (λ x, f x !! j).
Proof.
  intros Hlen Hj. revert r. induction l as [|x l IH]; intros r; [done|].
  rewrite fmap_cons. cbn [concat]. destruct r as [|r].
  - rewrite lookup_app_l by (rewrite Hlen; lia). done.
  - rewrite lookup_app_r by (rewrite Hlen; lia).
    rewrite Hlen. replace (S r * n + j - n)%nat with (r * n + j)%nat by lia.
    apply IH.
Qed.

Section picture.
Context {E : Type}.
Implicit Types (g : Grid E).

Lemma length_printed_line g (r : Z) :
  0 < m_width g →
  length (printed_line g r) = Z.to_nat (2 * m_width g + 2).
Proof.
  intros Hw. unfold printed_line.
  rewrite !length_app, length_glyphs, length_seqZ. cbn [length endl]. lia.
Qed.

Lemma glyph_mark (v : Z) : glyph v !! 1%nat = Some (mark v).
Proof. unfold glyph, mark. by destruct (v =? 0). Qed.

(** The mark of the [k]-th cell of a printed line. *)
Lemma printed_line_mark g (r : Z) (k : nat) :
  (Z.of_nat k < m_width g) →
  printed_line g r !! (2 + 2 * k)%nat
  = Some (mark (default 0 (m_contents g
                             !! Z.to_nat (r * m_width g + Z.of_nat k)))).
Proof.
  intros Hk. unfold printed_line.
  rewrite lookup_app_r by (cbn [length endl]; lia).
  rewrite lookup_app_l
    by (rewrite length_glyphs, length_seqZ; cbn [length endl]; lia).
  replace (2 + 2 * k - length endl)%nat with (k * 2 + 1)%nat
    by (cbn [length endl]; lia).
  rewrite (lookup_concat_blocks
             (λ i, glyph (default 0 (m_contents g !! Z.to_nat i))) 2);
    [|intros x; unfold glyph; by destruct (_ =? 0)|lia].
  rewrite lookup_seqZ_lt by lia. cbn [mbind option_bind].
  apply glyph_mark.
Qed.

Lemma printed_line_feed g (r : Z) :
  printed_line g r !! 0%nat = Some "010"%char.
Proof. done. Qed.

(** In what [operator<<] appends, the mark of every cell of the board
    stands at its [mark_position], and every line starts with a line
    feed. *)
Lemma operator_shl_marks g :
  Grid_wf g →
  ∃ picture,
    operator_shl [] g = Some picture ∧
    (∀ i, 0 <= i < m_max g →
       picture !! mark_position g i
       = Some (mark (default 0 (m_contents g !! Z.to_nat i)))) ∧
    (∀ r, 0 <= r < m_height g →
       picture !! (Z.to_nat r * Z.to_nat (2 * m_width g + 2))%nat
       = Some "010"%char).
Proof.
  intros Hwf. pose proof Hwf as (Hw & Hh & Hmax & Hlen).
  exists (concat (printed_line g <$> seqZ 0 (m_height g))).
  split; [by rewrite operator_shl_closed|]. split.
  - intros i Hi. unfold mark_position.
    pose proof (Z.mod_pos_bound i (m_width g) Hw) as Hmod.
    assert (0 <= i / m_width g < m_height g) as Hdiv.
    { split; [apply Z.div_pos; lia|].
      apply Z.div_lt_upper_bound; [lia|nia]. }
    rewrite (lookup_concat_blocks (printed_line g) _ _ _ _
               (λ r, length_printed_line g r Hw)) by lia.
    rewrite lookup_seqZ_lt by lia. cbn [mbind option_bind].
    replace (0 + Z.of_nat (Z.to_nat (i / m_width g)))
      with (i / m_width g) by lia.
    rewrite printed_line_mark by lia.
    replace (Z.of_nat (Z.to_nat (i mod m_width g)))
      with (i mod m_width g) by lia.
    do 4 f_equal.
    pose proof (Z.div_mod i (m_width g) ltac:(lia)). lia.
  - intros r Hr.
    rewrite <- (Nat.add_0_r (_ * _)).
    rewrite (lookup_concat_blocks (printed_line g) _ _ _ _
               (λ r, length_printed_line g r Hw)) by lia.
    rewrite lookup_seqZ_lt by lia. cbn [mbind option_bind].
    apply printed_line_feed.
Qed.

End picture.

(** X15. Lines break every [m_width] cells while coordinates are taken
    modulo [m_height], so on a board that is not square what [operator<<]
    prints does not show who neighbours whom.  In the printed text the mark
    of every cell stands at its [mark_position].  When [3 <= height < width],
    the marks of the cells of indices [height - 1] and [height] stand next to
    each other on the first line, one glyph apart, and the two cells are not
    neighbours.  When [3 <= width < height], the cells of indices
    [width - 1] and [width] are neighbours, and their marks stand at the end
    of the first line and at the start of the second, with the line feed
    between them. *)
Theorem picture_not_adjacency {E} (g : Grid E) :
  Grid_wf g →
  ∃ picture,
    operator_shl [] g = Some picture ∧
    (∀ i, 0 <= i < m_max g →
       picture !! mark_position g i
       = Some (mark (default 0 (m_contents g !! Z.to_nat i)))) ∧
    (3 <= m_height g < m_width g →
     mark_position g (m_height g - 1) = Z.to_nat (2 * m_height g) ∧
     mark_position g (m_height g) = Z.to_nat (2 * m_height g + 2) ∧
     (mark_position g (m_height g) < Z.to_nat (2 * m_width g + 2))%nat ∧
     ¬ is_neighbor g (m_height g - 1) (m_height g)) ∧
    (3 <= m_width g < m_height g →
     mark_position g (m_width g - 1) = Z.to_nat (2 * m_width g) ∧
     picture !! Z.to_nat (2 * m_width g + 2) = Some "010"%char ∧
     mark_position g (m_width g) = Z.to_nat (2 * m_width g + 4) ∧
     is_neighbor g (m_width g - 1) (m_width g)).
Proof.
  intros Hwf. pose proof Hwf as (Hw & Hh & Hmax & Hlen).
  destruct (operator_shl_marks g Hwf) as (picture & Hprint & Hmarks & Hfeeds).
  exists picture. split; [exact Hprint|]. split; [exact Hmarks|]. split.
  - intros Hdim. unfold mark_position.
    rewrite !Z.div_small, !Z.mod_small by lia.
    split; [lia|]. split; [lia|]. split; [lia|].
    rewrite is_neighbor_distance by (done || nia).
    assert (to_2d g (m_height g - 1) = (0, m_height g - 1)) as ->
      by (rewrite <- (to_2d_of_coord g 0 (m_height g - 1)) by lia;
          f_equal; lia).
    assert (to_2d g (m_height g) = (1, 0)) as ->
      by (rewrite <- (to_2d_of_coord g 1 0) by lia; f_equal; lia).
    simpl. lia.
  - intros Hdim. unfold mark_position.
    rewrite (Z.div_small (m_width g - 1)), (Z.mod_small (m_width g - 1))
      by lia.
    rewrite Z.div_same, Z.mod_same by lia.
    split; [lia|]. split.
    { specialize (Hfeeds 1 ltac:(lia)).
      replace (Z.to_nat (2 * m_width g + 2))
        with (Z.to_nat 1 * Z.to_nat (2 * m_width g + 2))%nat by lia.
      exact Hfeeds. }
    split; [lia|].
    rewrite is_neighbor_distance by (done || nia).
    assert (to_2d g (m_width g - 1) = (0, m_width g - 1)) as ->
      by (rewrite <- (to_2d_of_coord g 0 (m_width g - 1)) by lia;
          f_equal; lia).
    assert (to_2d g (m_width g) = (0, m_width g)) as ->
      by (rewrite <- (to_2d_of_coord g 0 (m_width g)) by lia; f_equal; lia).
    simpl. lia.
Qed.

Lemma picture_not_adjacency_witness :
  ∃ picture,
    operator_shl [] (board 1 4 3 [0;0;1; 1;0;0; 0;0;0; 0;0;0]) = Some picture ∧
    picture !! 6%nat = Some "*"%char ∧ picture !! 8%nat = Some "*"%char ∧
    ¬ is_neighbor (board 1 4 3 [0;0;1; 1;0;0; 0;0;0; 0;0;0]) 2 3.
Proof.
  destruct (picture_not_adjacency (board 1 4 3 [0;0;1; 1;0;0; 0;0;0; 0;0;0]))
    as (picture & Hprint & Hmarks & Hwide & _);
    [unfold Grid_wf; simpl; lia|].
  exists picture. split; [exact Hprint|].
  split; [exact (Hmarks 2 ltac:(simpl; lia))|].
  split; [exact (Hmarks 3 ltac:(simpl; lia))|].
  exact (proj2 (proj2 (proj2 (Hwide ltac:(simpl; lia))))).
Defined.
